(** * Soil-moisture simulation: the grid engine of the [Simulation] component

    A shallow embedding of the simulation page (src/app/layout.tsx, the
    [Simulation] component) and the properties of its update rule, manual
    overrides and history sampling.

    Numbers are exact rationals ([Q]): the statements are about moistures
    and parameters that are numbers, and [NaN], the infinities and the
    rounding of doubles are outside the model.  JavaScript cell objects
    live in a heap and a grid is an array of arrays of references into it,
    so that the sharing between [prevGrid] and [newGrid] inside
    [updateGrid] is visible. *)

From Stdlib Require Import ZArith QArith Qminmax String Lia Lqa.
From stdpp Require Import base option list.

Local Open Scope Q_scope.

(** ** Data model *)

(** [interface Cell] *)
Record Cell := mkCell {
  moisture : Q;
  tapStatus : bool;
  overrideTap : bool
}.

(** [interface SimulationParams] *)
Record SimulationParams := mkParams {
  diffusionCoefficient : Q;
  evapotranspirationRate : Q;
  irrigationRate : Q;
  moistureThreshold : Q
}.

Definition set_moisture (m : Q) (c : Cell) : Cell :=
  mkCell m (tapStatus c) (overrideTap c).
Definition set_tapStatus (b : bool) (c : Cell) : Cell :=
  mkCell (moisture c) b (overrideTap c).
Definition set_overrideTap (b : bool) (c : Cell) : Cell :=
  mkCell (moisture c) (tapStatus c) b.

(** A cell object is identified by its address; the heap only grows. *)
Abbreviation loc := nat (only parsing).
Abbreviation Heap := (list Cell) (only parsing).

(** [Cell[][]]: arrays hold references to cell objects.  The arrays
    themselves are never written after they are built (every handler
    copies an array before it assigns to one of its slots), so they are
    plain values here. *)
Abbreviation Grid := (list (list loc)) (only parsing).

(** ** Exceptions and the heap monad *)

Inductive error := TypeError | RangeError.

Inductive Result (A : Type) :=
| Ok (a : A)
| Throw (e : error).
Arguments Ok {A} a.
Arguments Throw {A} e.

Definition Eff (A : Type) : Type := Heap -> Result (A * Heap).

Definition ret {A} (a : A) : Eff A := fun h => Ok (a, h).
Definition throw {A} (e : error) : Eff A := fun _ => Throw e.
Definition bind {A B} (m : Eff A) (k : A -> Eff B) : Eff B :=
  fun h => match m h with
           | Ok (a, h') => k a h'
           | Throw e => Throw e
           end.

Notation "'let*' x ':=' m 'in' k" := (bind m (fun x => k))
  (at level 10, x name, m at level 100, k at level 200).
Notation "m ';;' k" := (bind m (fun _ => k))
  (at level 100, k at level 200, right associativity).

(** Reading a field of the object at [l]. *)
Definition readCell (l : loc) : Eff Cell :=
  fun h => match h !! l with
           | Some c => Ok (c, h)
           | None => Throw TypeError
           end.

(** Assigning to fields of the object at [l], in place. *)
Definition writeCell (l : loc) (f : Cell -> Cell) : Eff unit :=
  fun h => match h !! l with
           | Some c => Ok (tt, <[l := f c]> h)
           | None => Throw TypeError
           end.

(** An object literal [{ ... }] creates a fresh object. *)
Definition alloc (c : Cell) : Eff loc :=
  fun h => Ok (length h, h ++ [c]).

Fixpoint forEachM {A} (xs : list A) (body : A -> Eff unit) : Eff unit :=
  match xs with
  | [] => ret tt
  | x :: xs' => body x ;; forEachM xs' body
  end.

(** [for (let i = 0; i < n; i++) body] *)
Definition forRange (n : nat) (body : nat -> Eff unit) : Eff unit :=
  forEachM (seq 0 n) body.

Fixpoint foldM {A B} (f : B -> A -> Eff B) (xs : list A) (b : B) : Eff B :=
  match xs with
  | [] => ret b
  | x :: xs' => let* b' := f b x in foldM f xs' b'
  end.

(** ** Array indexing *)

(** [a[z]] for an integer [z]: [undefined] (here [None]) out of range,
    in particular at index -1. *)
Definition js_index {A} (a : list A) (z : Z) : option A :=
  if (z <? 0)%Z then None else a !! Z.to_nat z.

(** [a?.[j]] on a possibly undefined array. *)
Definition opt_index {A} (a : option (list A)) (z : Z) : option A :=
  match a with
  | Some row => js_index row z
  | None => None
  end.

(** [[...].filter(Boolean)]: cell objects are truthy, [undefined] is not. *)
Fixpoint filterBoolean {A} (xs : list (option A)) : list A :=
  match xs with
  | [] => []
  | Some x :: xs' => x :: filterBoolean xs'
  | None :: xs' => filterBoolean xs'
  end.

(** [g[i]] where the result is used as an array: a [TypeError] when the
    row is [undefined]. *)
Definition rowOf (g : Grid) (i : nat) : Eff (list loc) :=
  match g !! i with
  | Some row => ret row
  | None => throw TypeError
  end.

(** [g[i][j]] where the result is used as an object. *)
Definition cellRef (g : Grid) (i j : nat) : Eff loc :=
  let* row := rowOf g i in
  match row !! j with
  | Some l => ret l
  | None => throw TypeError
  end.

(** ** The update rule *)

Definition Qltb (x y : Q) : bool := negb (Qle_bool y x).

(** [Math.max(0, Math.min(1, m))] *)
Definition clamp (m : Q) : Q := Qmax 0 (Qmin 1 m).

(** Lines 158-163 of [updateGrid]. *)
Definition neighborsOf (prevGrid : Grid) (i j : nat) : Eff (list loc) :=
  let* row := rowOf prevGrid i in
  ret (filterBoolean
         [ opt_index (js_index prevGrid (Z.of_nat i - 1)) (Z.of_nat j);
           opt_index (js_index prevGrid (Z.of_nat i + 1)) (Z.of_nat j);
           js_index row (Z.of_nat j - 1);
           js_index row (Z.of_nat j + 1) ]).

(** Lines 165-168: the [forEach] over the neighbours.  Both moistures are
    read from the heap as it is when the loop runs. *)
Definition diffusionSum (D : Q) (self : loc) (neighbors : list loc) : Eff Q :=
  foldM (fun deltaMoisture neighbor =>
           let* n := readCell neighbor in
           let* s := readCell self in
           ret (deltaMoisture + D * (moisture n - moisture s)))
        neighbors 0.

(** The body of the inner loop of [updateGrid], lines 148-171. *)
Definition updateCell (params : SimulationParams) (timeStepSize : Q)
    (prevGrid newGrid : Grid) (i j : nat) : Eff unit :=
  let* cell := cellRef newGrid i j in
  let* c := readCell cell in
  (if negb (overrideTap c)
   then writeCell cell
          (fun c => set_tapStatus (Qltb (moisture c) (moistureThreshold params)) c)
   else ret tt) ;;
  let* c := readCell cell in
  (if tapStatus c
   then writeCell cell
          (fun c => set_moisture (moisture c + irrigationRate params * timeStepSize) c)
   else writeCell cell
          (fun c => set_moisture (moisture c - evapotranspirationRate params * timeStepSize) c)) ;;
  let* neighbors := neighborsOf prevGrid i j in
  let* self := cellRef prevGrid i j in
  let* deltaMoisture := diffusionSum (diffusionCoefficient params) self neighbors in
  writeCell cell (fun c => set_moisture (moisture c + deltaMoisture * timeStepSize) c) ;;
  writeCell cell (fun c => set_moisture (clamp (moisture c)) c).

(** The updater passed to [setGrid] in [updateGrid], lines 144-175.
    [prevGrid.map(row => [...row])] copies the two levels of arrays and
    shares every cell object with [prevGrid]. *)
Definition updateGrid_updater (params : SimulationParams) (timeStepSize : Q)
    (prevGrid : Grid) : Eff Grid :=
  let newGrid := map (fun row => row) prevGrid in
  forRange (length newGrid) (fun i =>
    let* row := rowOf newGrid i in
    forRange (length row) (fun j =>
      updateCell params timeStepSize prevGrid newGrid i j)) ;;
  ret newGrid.

(** ** Component state *)

Inductive MoistureUnit := percentage | volumetric.

(** An entry of [moistureHistory]. *)
Record Sample := mkSample {
  time : nat;
  sampleMoisture : Q
}.

(** The [useState] cells of [Simulation] that the engine reads or writes,
    together with the heap of cell objects. *)
Record Sim := mkSim {
  heap : Heap;
  grid : Grid;
  timeStep : nat;
  params : SimulationParams;
  timeStepSize : Q;
  selectedCell : option (nat * nat);
  moistureHistory : list Sample;
  moistureUnit : MoistureUnit
}.

Definition with_grid (h : Heap) (g : Grid) (st : Sim) : Sim :=
  mkSim h g (timeStep st) (params st) (timeStepSize st)
        (selectedCell st) (moistureHistory st) (moistureUnit st).
Definition with_timeStep (t : nat) (st : Sim) : Sim :=
  mkSim (heap st) (grid st) t (params st) (timeStepSize st)
        (selectedCell st) (moistureHistory st) (moistureUnit st).
Definition with_params (p : SimulationParams) (st : Sim) : Sim :=
  mkSim (heap st) (grid st) (timeStep st) p (timeStepSize st)
        (selectedCell st) (moistureHistory st) (moistureUnit st).
Definition with_timeStepSize (dt : Q) (st : Sim) : Sim :=
  mkSim (heap st) (grid st) (timeStep st) (params st) dt
        (selectedCell st) (moistureHistory st) (moistureUnit st).
Definition with_selectedCell (s : option (nat * nat)) (st : Sim) : Sim :=
  mkSim (heap st) (grid st) (timeStep st) (params st) (timeStepSize st)
        s (moistureHistory st) (moistureUnit st).
Definition with_moistureHistory (hs : list Sample) (st : Sim) : Sim :=
  mkSim (heap st) (grid st) (timeStep st) (params st) (timeStepSize st)
        (selectedCell st) hs (moistureUnit st).
Definition with_moistureUnit (u : MoistureUnit) (st : Sim) : Sim :=
  mkSim (heap st) (grid st) (timeStep st) (params st) (timeStepSize st)
        (selectedCell st) (moistureHistory st) u.

(** The state of the first render: the [useState] initial values
    (lines 105-121), before the effect of line 139 has installed a grid. *)
Definition initialSim : Sim :=
  mkSim [] [] 0 (mkParams (1 # 10) (2 # 100) (5 # 100) (2 # 10)) 1
        None [] percentage.

Definition rbind {A B} (r : Result A) (k : A -> Result B) : Result B :=
  match r with
  | Ok a => k a
  | Throw e => Throw e
  end.

(** Running a [setGrid] updater on the current state. *)
Definition setGrid (updater : Grid -> Eff Grid) (st : Sim) : Result Sim :=
  match updater (grid st) (heap st) with
  | Ok (g, h) => Ok (with_grid h g st)
  | Throw e => Throw e
  end.

(** [updateGrid], lines 143-178: the grid updater, then
    [setTimeStep(prev => prev + 1)]. *)
Definition updateGrid (st : Sim) : Result Sim :=
  rbind (setGrid (updateGrid_updater (params st) (timeStepSize st)) st)
        (fun st' => Ok (with_timeStep (timeStep st' + 1) st')).

(** [xs.slice(-n)] *)
Definition slice_last {A} (n : nat) (xs : list A) : list A :=
  drop (length xs - n) xs.

(** The effect of lines 180-188; it runs after a render in which
    [selectedCell], [timeStep] or [grid] changed. *)
Definition historyEffect (st : Sim) : Result Sim :=
  match selectedCell st with
  | Some (row, col) =>
      if (0 <? length (grid st))%nat then
        match (let* l := cellRef (grid st) row col in readCell l) (heap st) with
        | Ok (c, _) =>
            Ok (with_moistureHistory
                  (slice_last 20 (moistureHistory st
                                  ++ [mkSample (timeStep st) (moisture c)]))
                  st)
        | Throw e => Throw e
        end
      else Ok st
  | None => Ok st
  end.

(** [handleCellClick], lines 211-214. *)
Definition handleCellClick (row col : nat) (st : Sim) : Sim :=
  with_selectedCell (Some (row, col)) st.

(** The three updaters of the cell dialog (lines 534-543, 552-561,
    566-574) copy the outer array and the selected row and put a fresh
    object [{...old, changes}] in the selected slot.  They run under the
    guard of line 510 (see [dialogCell]), where the row and the cell
    exist and the assignment stays inside the row. *)
Definition replaceCell (f : Cell -> Cell) (row col : nat) (prevGrid : Grid)
  : Eff Grid :=
  let* r := rowOf prevGrid row in
  let* old := cellRef prevGrid row col in
  let* c := readCell old in
  let* fresh := alloc (f c) in
  ret (<[row := <[col := fresh]> r]> prevGrid).

(** The input's value after [parseFloat], converted to a saturation
    (line 533). *)
Definition newMoisture (u : MoistureUnit) (value : Q) : Q :=
  match u with
  | percentage => value / 100
  | volumetric => value / (1 # 2)
  end.

(** [onChange] of the manualMoisture input, lines 530-545; [None] is a
    [NaN] from [parseFloat]. *)
Definition manualMoistureChange (value : option Q) (row col : nat) (st : Sim)
  : Result Sim :=
  match value with
  | Some v =>
      setGrid (replaceCell
                 (fun c => set_overrideTap true
                             (set_moisture
                                (Qmin 1 (Qmax 0 (newMoisture (moistureUnit st) v))) c))
                 row col) st
  | None => Ok st
  end.

(** [onClick] of Toggle Tap, lines 551-562. *)
Definition toggleTap (row col : nat) (st : Sim) : Result Sim :=
  setGrid (replaceCell
             (fun c => set_overrideTap true (set_tapStatus (negb (tapStatus c)) c))
             row col) st.

(** [onClick] of Reset Tap Control, lines 565-575. *)
Definition resetTapControl (row col : nat) (st : Sim) : Result Sim :=
  setGrid (replaceCell (fun c => set_overrideTap false c) row col) st.

(** The cell at a grid position, if there is one. *)
Definition cellAt (st : Sim) (row col : nat) : option Cell :=
  match grid st !! row with
  | Some r => match r !! col with
              | Some l => heap st !! l
              | None => None
              end
  | None => None
  end.

(** The dialog's controls exist only under the guard of line 510:
    [selectedCell && grid[row] && grid[row][col]]. *)
Definition dialogCell (st : Sim) : option (nat * nat) :=
  match selectedCell st with
  | Some (row, col) =>
      match grid st !! row with
      | Some r => match r !! col with
                  | Some _ => Some (row, col)
                  | None => None
                  end
      | None => None
      end
  | None => None
  end.

Inductive ParamKey :=
| KDiffusionCoefficient | KEvapotranspirationRate
| KIrrigationRate | KMoistureThreshold.

(** [max] of a [ParamControl], line 380; [min] is 0. *)
Definition paramMax (k : ParamKey) : Q :=
  match k with
  | KDiffusionCoefficient | KMoistureThreshold => 1
  | _ => 1 # 2
  end.

(** [setParams(prev => ({ ...prev, [key]: newValue }))] *)
Definition setParam (k : ParamKey) (v : Q) (p : SimulationParams)
  : SimulationParams :=
  match k with
  | KDiffusionCoefficient =>
      mkParams v (evapotranspirationRate p) (irrigationRate p) (moistureThreshold p)
  | KEvapotranspirationRate =>
      mkParams (diffusionCoefficient p) v (irrigationRate p) (moistureThreshold p)
  | KIrrigationRate =>
      mkParams (diffusionCoefficient p) (evapotranspirationRate p) v (moistureThreshold p)
  | KMoistureThreshold =>
      mkParams (diffusionCoefficient p) (evapotranspirationRate p) (irrigationRate p) v
  end.

(** ** Events *)

(** What the user (or the interval timer) can make the component do. *)
Inductive Event :=
| Click (row col : nat)
| StepForward
| ManualMoisture (value : option Q)
| ToggleTap
| ResetTapControl
| ParamInput (k : ParamKey) (v : Q)
| TimeStepSizeInput (v : Q)
| MoistureUnitSelect (u : MoistureUnit).

(** One event: the handler, then the render and, when one of its
    dependencies was set, the history effect.  The two state updates of
    [updateGrid] are batched into one render.  An event whose control is
    not rendered in the current state cannot happen and leaves the state
    as it is. *)
Definition dispatch (e : Event) (st : Sim) : Result Sim :=
  match e with
  | Click row col =>
      match cellAt st row col with
      | Some _ => historyEffect (handleCellClick row col st)
      | None => Ok st
      end
  | StepForward => rbind (updateGrid st) historyEffect
  | ManualMoisture value =>
      match dialogCell st, value with
      | Some (row, col), Some _ =>
          rbind (manualMoistureChange value row col st) historyEffect
      | _, _ => Ok st
      end
  | ToggleTap =>
      match dialogCell st with
      | Some (row, col) => rbind (toggleTap row col st) historyEffect
      | None => Ok st
      end
  | ResetTapControl =>
      match dialogCell st with
      | Some (row, col) => rbind (resetTapControl row col st) historyEffect
      | None => Ok st
      end
  | ParamInput k v =>
      if Qle_bool 0 v && Qle_bool v (paramMax k)
      then Ok (with_params (setParam k v (params st)) st)
      else Ok st
  | TimeStepSizeInput v =>
      if Qle_bool (1 # 10) v && Qle_bool v 24
      then Ok (with_timeStepSize v st)
      else Ok st
  | MoistureUnitSelect u => Ok (with_moistureUnit u st)
  end.

Fixpoint run (tr : list Event) (st : Sim) : Result Sim :=
  match tr with
  | [] => Ok st
  | e :: tr' => rbind (dispatch e st) (run tr')
  end.

(** ** Grid creation *)

(** [Array(n)] for the result [n] of [parseInt] ([None] is [NaN]). *)
Definition Array_ (n : option Z) : Eff nat :=
  match n with
  | Some z => if (0 <=? z)%Z && (z <? 2 ^ 32)%Z
              then ret (Z.to_nat z) else throw RangeError
  | None => throw RangeError
  end.

(** The arguments on which [Array(n)] returns an array: the integers from
    0 to 2^32 - 1. *)
Definition isLength (n : option Z) : Prop :=
  exists z, n = Some z /\ (0 <= z < 2 ^ 32)%Z.

Fixpoint mapM {A B} (f : A -> Eff B) (xs : list A) : Eff (list B) :=
  match xs with
  | [] => ret []
  | x :: xs' => let* y := f x in let* ys := mapM f xs' in ret (y :: ys)
  end.

(** The object literal of lines 131-135 for the [k]-th cell created;
    [random k] is the [k]-th result of [Math.random()]. *)
Definition newCell (initialMoisture : string) (uniformMoisture : Q)
    (random : nat -> Q) (k : nat) : Cell :=
  mkCell (if String.eqb initialMoisture "uniform"
          then uniformMoisture else random k)
         false false.

(** [initializeGrid], lines 124-137, from the parsed search parameters:
    [rows] and [cols] after [parseInt], [uniformPercent] after
    [parseFloat] and before the division by 100. *)
Definition initializeGrid (rows cols : option Z) (initialMoisture : string)
    (uniformPercent : Q) (random : nat -> Q) : Eff Grid :=
  let uniformMoisture := uniformPercent / 100 in
  let* nrows := Array_ rows in
  mapM (fun r =>
          let* ncols := Array_ cols in
          mapM (fun c =>
                  alloc (newCell initialMoisture uniformMoisture random
                                 (r * ncols + c)))
               (seq 0 ncols))
       (seq 0 nrows).

(** ** Concrete grids *)

(** The 1x2 grid with moistures 0 and 1, D = 0.1 and no irrigation,
    evaporation or threshold. *)
Definition demo2 : Sim :=
  mkSim [mkCell 0 false false; mkCell 1 false false] [[0%nat; 1%nat]] 0
        (mkParams (1 # 10) 0 0 0) 1 None [] percentage.

(** A 1x2 grid with moistures [mA] and [mB], taps off, no override,
    diffusion coefficient [D], no irrigation, evaporation or threshold,
    time step 1. *)
Definition twoCells (mA mB D : Q) : Sim :=
  mkSim [mkCell mA false false; mkCell mB false false] [[0%nat; 1%nat]] 0
        (mkParams D 0 0 0) 1 None [] percentage.

(** The 1x1 grid of the scenario: moisture 0.5, threshold 0.6, irrigation
    0.1, evapotranspiration 0.05, no diffusion, time step 1. *)
Definition scenario9 : Sim :=
  mkSim [mkCell (5 # 10) false false] [[0%nat]] 0
        (mkParams 0 (5 # 100) (1 # 10) (6 # 10)) 1 None [] percentage.

(** A two-cell grid whose second cell is overridden with the tap on and a
    moisture far above the threshold. *)
Definition demoOverride : Sim :=
  mkSim [mkCell (1 # 2) false false; mkCell (9 # 10) true true]
        [[0%nat; 1%nat]] 0
        (mkParams (1 # 10) (2 # 100) (5 # 100) (2 # 10)) 1 None [] percentage.


(** ** Predicates of the statements *)

(** Every reference stored in the grid points into the heap. *)
Definition valid (h : Heap) (g : Grid) : Prop :=
  Forall (Forall (fun l => (l < length h)%nat)) g.

(** The reference stored at a grid position. *)
Definition refAt (g : list (list nat)) (i j : nat) : option nat :=
  match g !! i with
  | Some row => row !! j
  | None => None
  end.

(** The neighbour list of lines 158-163 as a function of the grid alone:
    up, down, left, right, the positions outside the grid left out. *)
Definition neighborRefs (g : list (list nat)) (i j : nat) : list nat :=
  filterBoolean
    [ match i with O => None | S i' => refAt g i' j end;
      refAt g (S i) j;
      match j with O => None | S j' => refAt g i j' end;
      refAt g i (S j) ].

(** The moisture field of the object at [l] in the heap [h]. *)
Definition moistureAt (h : list Cell) (l : nat) : Q :=
  match h !! l with
  | Some c => moisture c
  | None => 0
  end.

(** The value the [forEach] of lines 165-168 accumulates when it runs on
    the heap [h]. *)
Definition diffusionOf (D : Q) (h : list Cell) (self : nat) (ns : list nat) : Q :=
  fold_left (fun acc n => acc + D * (moistureAt h n - moistureAt h self)) ns 0.

(** The cell [c] after the tap decision and the local flux, lines
    148-156. *)
Definition fluxedCell (p : SimulationParams) (dt : Q) (c : Cell) : Cell :=
  let c1 := if negb (overrideTap c)
            then set_tapStatus (Qltb (moisture c) (moistureThreshold p)) c
            else c in
  if tapStatus c1
  then set_moisture (moisture c1 + irrigationRate p * dt) c1
  else set_moisture (moisture c1 - evapotranspirationRate p * dt) c1.

(** What one pass of the loop body makes of the cell [c], when the
    neighbour sum it read was [d]. *)
Definition updatedCell (p : SimulationParams) (dt d : Q) (c : Cell) : Cell :=
  let c2 := fluxedCell p dt c in
  let c3 := set_moisture (moisture c2 + d * dt) c2 in
  set_moisture (clamp (moisture c3)) c3.

(** A moisture inside [0,1]. *)
Definition inRange (c : Cell) : Prop := 0 <= moisture c <= 1.

(** The relation between a cell object before and after some passes of
    the loop body: the override flag is kept, an overridden tap is kept,
    and a moisture inside [0,1] stays inside. *)
Definition cell_step (c c' : Cell) : Prop :=
  overrideTap c' = overrideTap c
  /\ (overrideTap c = true -> tapStatus c' = tapStatus c)
  /\ (inRange c -> inRange c').

(** The heap after some passes of the loop body: no object is created
    and every object is related to what it was by [cell_step]. *)
Definition evolves (h h' : list Cell) : Prop :=
  length h' = length h
  /\ forall l c, h !! l = Some c ->
       exists c', h' !! l = Some c' /\ cell_step c c'.

(** References are valid and the selected cell, if any, is a cell of the
    grid (cells are selected by clicking them). *)
Definition wf (st : Sim) : Prop :=
  valid (heap st) (grid st)
  /\ match selectedCell st with
     | Some (row, col) => is_Some (cellAt st row col)
     | None => True
     end.

(** The history the effect leaves, from the history [hist] it found. *)
Definition sampledFrom (hist : list Sample) (st : Sim) : list Sample :=
  match selectedCell st with
  | Some (row, col) =>
      match cellAt st row col with
      | Some cell =>
          slice_last 20 (hist ++ [mkSample (timeStep st) (moisture cell)])
      | None => hist
      end
  | None => hist
  end.

(** Whether an event sets one of the effect's dependencies. *)
Definition runs_effect (e : Event) (st : Sim) : bool :=
  match e with
  | Click row col => bool_decide (is_Some (cellAt st row col))
  | StepForward => true
  | ManualMoisture value =>
      bool_decide (is_Some (dialogCell st)) && bool_decide (is_Some value)
  | ToggleTap | ResetTapControl => bool_decide (is_Some (dialogCell st))
  | _ => false
  end.

(** The event is a press of Reset Tap Control while [(row, col)] is the
    selected cell. *)
Definition is_reset_at (e : Event) (st : Sim) (row col : nat) : Prop :=
  e = ResetTapControl /\ selectedCell st = Some (row, col).

(** What one event does to a well-formed state. *)
Record trans (e : Event) (st st' : Sim) : Prop := mkTrans {
  trans_wf : wf st';
  trans_shape : map length (grid st') = map length (grid st);
  trans_time :
    timeStep st' = match e with
                   | StepForward => (timeStep st + 1)%nat
                   | _ => timeStep st
                   end;
  trans_selected :
    selectedCell st' = match e with
                       | Click row col =>
                           match cellAt st row col with
                           | Some _ => Some (row, col)
                           | None => selectedCell st
                           end
                       | _ => selectedCell st
                       end;
  trans_cells :
    forall row col cell, cellAt st row col = Some cell ->
      exists cell', cellAt st' row col = Some cell'
        /\ (inRange cell -> inRange cell')
        /\ (e = StepForward -> cell_step cell cell')
        /\ (~ is_reset_at e st row col ->
            overrideTap cell = true -> overrideTap cell' = true);
  trans_history :
    moistureHistory st' = if runs_effect e st
                          then sampledFrom (moistureHistory st) st'
                          else moistureHistory st
}.

(** Every cell of the grid has its moisture in [0,1]. *)
Definition gridInRange (st : Sim) : Prop :=
  forall row col cell, cellAt st row col = Some cell -> inRange cell.

(** The trace never presses Reset Tap Control while [(row, col)] is the
    selected cell. *)
Fixpoint no_clear (row col : nat) (tr : list Event) (st : Sim) : Prop :=
  match tr with
  | [] => True
  | e :: tr' =>
      ~ is_reset_at e st row col
      /\ match dispatch e st with
         | Ok st' => no_clear row col tr' st'
         | Throw _ => True
         end
  end.






(** ** Further parts of the component *)

(** No two grid positions hold the same cell object. *)
Definition distinctCells (g : list (list nat)) : Prop :=
  forall i j i' j' l,
    refAt g i j = Some l -> refAt g i' j' = Some l -> i = i' /\ j = j'.

(** Position [(i', j')] comes before [(i, j)] in the order of the two
    loops of [updateGrid]. *)
Definition before (i j i' j' : nat) : Prop :=
  (i' < i)%nat \/ (i' = i /\ (j' < j)%nat).

(** The object [l] sits at a grid position that the loops have passed
    when they reach [(i, j)]. *)
Definition touched (g : list (list nat)) (i j l : nat) : Prop :=
  exists i' j', before i j i' j' /\ refAt g i' j' = Some l.

(** The cell that the pass at position [(i, j)] writes to the object [l],
    from its content [c] and the heap [h] as the pass finds them. *)
Definition passResult (p : SimulationParams) (dt : Q) (g : list (list nat))
    (h : list Cell) (l i j : nat) (c : Cell) : Cell :=
  updatedCell p dt
    (diffusionOf (diffusionCoefficient p) (<[l := fluxedCell p dt c]> h) l
                 (neighborRefs g i j)) c.

(** The change a dialog event makes to the selected cell (lines 537-541,
    555-559, 569-572). *)
Definition dialogUpdate (e : Event) (u : MoistureUnit) : option (Cell -> Cell) :=
  match e with
  | ManualMoisture (Some v) =>
      Some (fun c => set_overrideTap true
                       (set_moisture (Qmin 1 (Qmax 0 (newMoisture u v))) c))
  | ToggleTap =>
      Some (fun c => set_overrideTap true (set_tapStatus (negb (tapStatus c)) c))
  | ResetTapControl => Some (fun c => set_overrideTap false c)
  | _ => None
  end.

(** The parameters lie in the ranges of their controls (lines 379-381
    and 389-390). *)
Definition paramsInRange (st : Sim) : Prop :=
  0 <= diffusionCoefficient (params st) <= 1
  /\ 0 <= evapotranspirationRate (params st) <= 1 # 2
  /\ 0 <= irrigationRate (params st) <= 1 # 2
  /\ 0 <= moistureThreshold (params st) <= 1
  /\ 1 # 10 <= timeStepSize st <= 24.

(** The ticks of the history never decrease and none lies in the future. *)
Definition historyOrdered (st : Sim) : Prop :=
  (forall i j s1 s2, (i <= j)%nat ->
     moistureHistory st !! i = Some s1 -> moistureHistory st !! j = Some s2 ->
     (time s1 <= time s2)%nat)
  /\ forall s, s ∈ moistureHistory st -> (time s <= timeStep st)%nat.

Definition isClick (e : Event) : bool :=
  match e with Click _ _ => true | _ => false end.

(** The search parameters as [initializeGrid] reads them (lines 125-128):
    [rows] and [cols] after [parseInt], the seed after [parseFloat]. *)
Record SearchParams := mkSearchParams {
  sp_rows : option Z;
  sp_cols : option Z;
  sp_initialMoisture : string;
  sp_uniformMoisture : Q
}.

(** The effect of lines 139-141, [setGrid(initializeGrid())], and the
    render after it, in which the history effect sees the new grid. *)
Definition installGrid (sp : SearchParams) (random : nat -> Q) (st : Sim)
  : Result Sim :=
  match initializeGrid (sp_rows sp) (sp_cols sp) (sp_initialMoisture sp)
                       (sp_uniformMoisture sp) random (heap st) with
  | Ok (g, h) => historyEffect (with_grid h g st)
  | Throw e => Throw e
  end.

(** The component state with the run flag of line 106. *)
Record Page := mkPage {
  sim : Sim;
  isRunning : bool
}.

(** [toggleSimulation], line 202. *)
Definition toggleSimulation (pg : Page) : Page :=
  mkPage (sim pg) (negb (isRunning pg)).

(** [resetSimulation], lines 204-209, and the render after it. *)
Definition resetSimulation (sp : SearchParams) (random : nat -> Q) (pg : Page)
  : Result Page :=
  match initializeGrid (sp_rows sp) (sp_cols sp) (sp_initialMoisture sp)
                       (sp_uniformMoisture sp) random (heap (sim pg)) with
  | Ok (g, h) =>
      rbind (historyEffect
               (with_grid h g
                  (with_moistureHistory [] (with_timeStep 0 (sim pg)))))
            (fun s => Ok (mkPage s false))
  | Throw e => Throw e
  end.

(** The events of the page: the buttons of lines 369-371 and the events
    of the engine.  The interval timer of a running page and the Step
    Forward button both call [updateGrid]; a press of Reset carries the
    values that [Math.random()] returns while the new grid is built.  The
    sliders of the parameter controls (lines 318-325) pass on the values
    of a component that is not part of the sources and are not among the
    events. *)
Inductive PageEvent :=
| StartPause
| Reset (random : nat -> Q)
| Engine (e : Event).

Definition pageDispatch (sp : SearchParams) (e : PageEvent) (pg : Page)
  : Result Page :=
  match e with
  | StartPause => Ok (toggleSimulation pg)
  | Reset random => resetSimulation sp random pg
  | Engine e =>
      rbind (dispatch e (sim pg)) (fun s => Ok (mkPage s (isRunning pg)))
  end.

Fixpoint runPage (sp : SearchParams) (tr : list PageEvent) (pg : Page)
  : Result Page :=
  match tr with
  | [] => Ok pg
  | e :: tr' => rbind (pageDispatch sp e pg) (runPage sp tr')
  end.

(** The number of calls of [updateGrid] in a sequence of page events. *)
Fixpoint pageSteps (tr : list PageEvent) : nat :=
  match tr with
  | [] => 0
  | Engine StepForward :: tr' => S (pageSteps tr')
  | _ :: tr' => pageSteps tr'
  end.

Definition isReset (e : PageEvent) : bool :=
  match e with Reset _ => true | _ => false end.

(** [grid.flat()] of lines 337 and 488. *)
Definition flat (g : list (list nat)) : list nat := concat g.

(** The position that the [onClick] of the [index]-th rendered cell
    passes to [handleCellClick], line 346; there is none when
    [grid[0].length] is 0 (the quotient and the remainder are then not
    numbers of a position) or the grid is empty. *)
Definition clickedPosition (g : list (list nat)) (index : nat)
  : option (nat * nat) :=
  match g !! 0%nat with
  | Some row0 =>
      if (length row0 =? 0)%nat then None
      else Some (index / length row0, index mod length row0)%nat
  | None => None
  end.

(** A colour [hsl(hue, saturation%, lightness%)], kept as its three
    numbers. *)
Record Hsl := mkHsl {
  hue : Q;
  saturation : Q;
  lightness : Q
}.

(** [getColorForMoisture], lines 71-83. *)
Definition getColorForMoisture (m : Q) (colorScheme : string) : Hsl :=
  if String.eqb colorScheme "blue" then mkHsl 240 100 (100 - m * 50)
  else if String.eqb colorScheme "grayscale" then mkHsl 0 0 (100 - m * 100)
  else mkHsl (m * 240) 100 50.

(** [getTextColorForMoisture], lines 85-87. *)
Definition getTextColorForMoisture (m : Q) : string :=
  if Qltb (1 # 2) m then "white" else "black".

(** A 1x2 grid with a dry and a wet cell and no diffusion. *)
Definition demoNoDiffusion : Sim :=
  mkSim [mkCell (1 # 10) false false; mkCell (9 # 10) false false]
        [[0%nat; 1%nat]] 0
        (mkParams 0 (2 # 100) (5 # 100) (2 # 10)) 1 None [] percentage.

(** The grid of [demoOverride] with its second cell selected. *)
Definition demoSelected : Sim :=
  mkSim [mkCell (1 # 2) false false; mkCell (9 # 10) true true]
        [[0%nat; 1%nat]] 3
        (mkParams (1 # 10) (2 # 100) (5 # 100) (2 # 10)) 1
        (Some (0%nat, 1%nat)) [mkSample 3 (9 # 10)] percentage.

(** A running page on [demoSelected]. *)
Definition demoPage : Page := mkPage demoSelected true.

(** ** Stepping through the heap monad *)

Section EffSteps.
Context {A B : Type}.

Lemma bind_Ok (m : Eff A) (k : A -> Eff B) h a h' :
  m h = Ok (a, h') -> bind m k h = k a h'.
Proof. unfold bind. intros ->. reflexivity. Qed.

End EffSteps.

Lemma readCell_Ok (h : Heap) l c :
  h !! l = Some c -> readCell l h = Ok (c, h).
Proof. unfold readCell. intros ->. reflexivity. Qed.

Lemma writeCell_Ok (h : Heap) l f c :
  h !! l = Some c -> writeCell l f h = Ok (tt, <[l := f c]> h).
Proof. unfold writeCell. intros ->. reflexivity. Qed.

Lemma readCell_insert (h : Heap) l c :
  (l < length h)%nat -> readCell l (<[l := c]> h) = Ok (c, <[l := c]> h).
Proof. intros Hl. apply readCell_Ok. by apply list_lookup_insert_eq. Qed.

Lemma writeCell_insert (h : Heap) l f c :
  (l < length h)%nat ->
  writeCell l f (<[l := c]> h) = Ok (tt, <[l := f c]> h).
Proof.
  intros Hl. erewrite writeCell_Ok by by apply list_lookup_insert_eq.
  by rewrite list_insert_insert_eq.
Qed.

Lemma rowOf_Ok (g : Grid) i row h :
  g !! i = Some row -> rowOf g i h = Ok (row, h).
Proof. unfold rowOf. intros ->. reflexivity. Qed.

Lemma cellRef_Ok (g : Grid) i j row l h :
  g !! i = Some row -> row !! j = Some l -> cellRef g i j h = Ok (l, h).
Proof.
  intros Hi Hj. unfold cellRef.
  rewrite (bind_Ok _ _ _ _ _ (rowOf_Ok _ _ _ h Hi)). by rewrite Hj.
Qed.

(** ** Well-formed grids *)

Lemma valid_lookup h g i row j l :
  valid h g -> g !! i = Some row -> row !! j = Some l -> (l < length h)%nat.
Proof.
  intros Hv Hi Hj.
  eapply (Forall_lookup_1 _ _ _ _ (Forall_lookup_1 _ _ _ _ Hv Hi) Hj).
Qed.

Lemma valid_length h h' g : length h' = length h -> valid h g -> valid h' g.
Proof. unfold valid. intros ->. done. Qed.

Lemma filterBoolean_elem {A} (xs : list (option A)) x :
  x ∈ filterBoolean xs <-> Some x ∈ xs.
Proof.
  induction xs as [|[y|] xs IH]; simpl.
  - split; intros H; inversion H.
  - rewrite !elem_of_cons, IH. split; intros [H|H]; auto; left; congruence.
  - rewrite elem_of_cons, IH. split; [auto|]. intros [H|H]; [discriminate|done].
Qed.

Lemma js_index_nat {A} (a : list A) (k : nat) :
  js_index a (Z.of_nat k) = a !! k.
Proof.
  unfold js_index. destruct (Z.ltb_spec (Z.of_nat k) 0); [lia|].
  by rewrite Nat2Z.id.
Qed.

Lemma js_index_pred {A} (a : list A) (k : nat) :
  js_index a (Z.of_nat k - 1) = match k with
                                | O => None
                                | S k' => a !! k'
                                end.
Proof.
  unfold js_index. destruct k as [|k'].
  - reflexivity.
  - destruct (Z.ltb_spec (Z.of_nat (S k') - 1) 0); [lia|].
    f_equal. lia.
Qed.

Lemma js_index_succ {A} (a : list A) (k : nat) :
  js_index a (Z.of_nat k + 1) = a !! S k.
Proof.
  unfold js_index. destruct (Z.ltb_spec (Z.of_nat k + 1) 0); [lia|].
  f_equal. lia.
Qed.

(** The list built at lines 158-163, position by position. *)
Lemma neighborsOf_refs (g : list (list nat)) i j row (h : list Cell) :
  g !! i = Some row ->
  neighborsOf g i j h = Ok (neighborRefs g i j, h).
Proof.
  intros Hi. unfold neighborsOf, neighborRefs.
  rewrite (bind_Ok _ _ _ _ _ (rowOf_Ok _ _ _ h Hi)). unfold ret.
  assert (H1 : opt_index (js_index g (Z.of_nat i - 1)) (Z.of_nat j)
               = match i with O => None | S i' => refAt g i' j end).
  { rewrite js_index_pred. unfold refAt. destruct i as [|i']; [done|].
    destruct (g !! i'); [apply js_index_nat|done]. }
  assert (H2 : opt_index (js_index g (Z.of_nat i + 1)) (Z.of_nat j)
               = refAt g (S i) j).
  { rewrite js_index_succ. unfold refAt.
    destruct (g !! S i); [apply js_index_nat|done]. }
  assert (H3 : js_index row (Z.of_nat j - 1)
               = match j with O => None | S j' => refAt g i j' end).
  { rewrite js_index_pred. unfold refAt. by rewrite Hi. }
  assert (H4 : js_index row (Z.of_nat j + 1) = refAt g i (S j)).
  { rewrite js_index_succ. unfold refAt. by rewrite Hi. }
  by rewrite H1, H2, H3, H4.
Qed.

Lemma refAt_valid h g i j l :
  valid h g -> refAt g i j = Some l -> (l < length h)%nat.
Proof.
  unfold refAt. intros Hv. destruct (g !! i) as [row|] eqn:Hi; [|done].
  intros Hj. by eapply valid_lookup.
Qed.

Lemma neighborRefs_valid h g i j :
  valid h g -> Forall (fun n => (n < length h)%nat) (neighborRefs g i j).
Proof.
  intros Hv. apply Forall_forall. intros n Hn.
  apply filterBoolean_elem in Hn. rewrite !elem_of_cons in Hn.
  destruct Hn as [Hn|[Hn|[Hn|[Hn|Hn]]]].
  - destruct i as [|i']; [done|]. symmetry in Hn. by eapply refAt_valid.
  - symmetry in Hn. by eapply refAt_valid.
  - destruct j as [|j']; [done|]. symmetry in Hn. by eapply refAt_valid.
  - symmetry in Hn. by eapply refAt_valid.
  - inversion Hn.
Qed.

(** The neighbour sum is taken over the heap as it is when the loop
    runs. *)
Lemma diffusionSum_value D self ns (h : list Cell) :
  (self < length h)%nat -> Forall (fun n => (n < length h)%nat) ns ->
  diffusionSum D self ns h = Ok (diffusionOf D h self ns, h).
Proof.
  intros Hs Hns. unfold diffusionSum, diffusionOf.
  destruct (lookup_lt_is_Some_2 h self Hs) as [cs Hcs].
  generalize 0.
  induction Hns as [|n ns Hn Hns IH]; intros acc.
  - reflexivity.
  - destruct (lookup_lt_is_Some_2 h n Hn) as [cn Hcn].
    cbn [foldM fold_left].
    erewrite bind_Ok; [apply IH|].
    cbv beta. unfold bind, readCell, moistureAt. rewrite Hcn, Hcs. reflexivity.
Qed.

(** One pass of the loop body, in closed form: the neighbours and the
    cell itself are read from the heap in which the cell already carries
    its local flux, together with every change of the earlier passes. *)
Lemma updateCell_Ok p dt h g i j row l c :
  valid h g -> g !! i = Some row -> row !! j = Some l -> h !! l = Some c ->
  updateCell p dt g (map (fun r => r) g) i j h
  = Ok (tt, <[l := updatedCell p dt
                     (diffusionOf (diffusionCoefficient p)
                                  (<[l := fluxedCell p dt c]> h) l
                                  (neighborRefs g i j)) c]> h).
Proof.
  intros Hv Hi Hj Hc.
  assert (Hl : (l < length h)%nat) by by eapply lookup_lt_Some.
  assert (Hi' : map (fun r : list loc => r) g !! i = Some row)
    by by rewrite list_lookup_fmap, Hi.
  unfold updateCell.
  rewrite (bind_Ok _ _ _ _ _ (cellRef_Ok _ _ _ _ _ h Hi' Hj)).
  rewrite (bind_Ok _ _ _ _ _ (readCell_Ok _ _ _ Hc)).
  set (c1 := if negb (overrideTap c)
             then set_tapStatus (Qltb (moisture c) (moistureThreshold p)) c
             else c).
  assert (H1 : (if negb (overrideTap c)
                then writeCell l (fun c0 => set_tapStatus
                       (Qltb (moisture c0) (moistureThreshold p)) c0)
                else ret tt) h = Ok (tt, <[l := c1]> h)).
  { subst c1. destruct (negb (overrideTap c)).
    - exact (writeCell_Ok h l _ c Hc).
    - unfold ret. by rewrite list_insert_id. }
  rewrite (bind_Ok _ _ _ _ _ H1).
  rewrite (bind_Ok _ _ _ _ _ (readCell_insert _ _ _ Hl)).
  assert (H2 : (if tapStatus c1
                then writeCell l (fun c0 => set_moisture
                       (moisture c0 + irrigationRate p * dt) c0)
                else writeCell l (fun c0 => set_moisture
                       (moisture c0 - evapotranspirationRate p * dt) c0))
               (<[l := c1]> h) = Ok (tt, <[l := fluxedCell p dt c]> h)).
  { unfold fluxedCell. fold c1.
    destruct (tapStatus c1); exact (writeCell_insert h l _ c1 Hl). }
  rewrite (bind_Ok _ _ _ _ _ H2).
  rewrite (bind_Ok _ _ _ _ _ (neighborsOf_refs g i j row _ Hi)).
  rewrite (bind_Ok _ _ _ _ _ (cellRef_Ok _ _ _ _ _ _ Hi Hj)).
  rewrite (bind_Ok _ _ _ _ _
             (diffusionSum_value (diffusionCoefficient p) l (neighborRefs g i j)
                (<[l := fluxedCell p dt c]> h)
                ltac:(by rewrite length_insert)
                ltac:(eapply Forall_impl; [exact (neighborRefs_valid h g i j Hv)|];
                      intros n Hn; by rewrite length_insert))).
  rewrite (bind_Ok _ _ _ _ _ (writeCell_insert _ _ _ _ Hl)).
  rewrite (writeCell_insert _ _ _ _ Hl).
  reflexivity.
Qed.

(** ** What a tick may change in a cell *)

Lemma clamp_range m : 0 <= clamp m <= 1.
Proof.
  unfold clamp. split.
  - apply Q.le_max_l.
  - apply Q.max_lub; [discriminate|apply Q.le_min_l].
Qed.

Lemma cell_step_refl c : cell_step c c.
Proof. unfold cell_step. auto. Qed.

Lemma cell_step_trans c1 c2 c3 :
  cell_step c1 c2 -> cell_step c2 c3 -> cell_step c1 c3.
Proof.
  intros (Ho1 & Ht1 & Hr1) (Ho2 & Ht2 & Hr2). split; [|split].
  - congruence.
  - intros Ho. rewrite Ht2, Ht1; congruence.
  - auto.
Qed.

Lemma fluxedCell_flags p dt c :
  overrideTap (fluxedCell p dt c) = overrideTap c
  /\ (overrideTap c = true -> tapStatus (fluxedCell p dt c) = tapStatus c).
Proof.
  unfold fluxedCell. destruct (overrideTap c) eqn:Ho; simpl.
  - destruct (tapStatus c) eqn:Ht; simpl; by rewrite Ho, Ht.
  - split; [|done].
    destruct (Qltb (moisture c) (moistureThreshold p)); simpl; exact Ho.
Qed.

Lemma updatedCell_step p dt d c : cell_step c (updatedCell p dt d c).
Proof.
  destruct (fluxedCell_flags p dt c) as [Ho Ht].
  unfold updatedCell, cell_step. simpl. split; [done|]. split; [done|].
  intros _. apply clamp_range.
Qed.

Lemma evolves_refl h : evolves h h.
Proof. split; [done|]. intros l c Hc. exists c. split; [done|apply cell_step_refl]. Qed.

Lemma evolves_trans h1 h2 h3 : evolves h1 h2 -> evolves h2 h3 -> evolves h1 h3.
Proof.
  intros [Hl1 H1] [Hl2 H2]. split; [congruence|].
  intros l c Hc. destruct (H1 _ _ Hc) as (c2 & Hc2 & Hs1).
  destruct (H2 _ _ Hc2) as (c3 & Hc3 & Hs2).
  exists c3. split; [done|]. by eapply cell_step_trans.
Qed.

Lemma evolves_insert (h : list Cell) l c c' :
  h !! l = Some c -> cell_step c c' -> evolves h (<[l := c']> h).
Proof.
  intros Hc Hs. split; [apply length_insert|].
  intros l0 c0 Hc0. destruct (decide (l0 = l)) as [->|Hne].
  - exists c'. split.
    + apply list_lookup_insert_eq. by eapply lookup_lt_Some.
    + congruence.
  - exists c0. split; [|apply cell_step_refl].
    by rewrite list_lookup_insert_ne.
Qed.

(** ** Loops *)

Lemma forEachM_inv {A} (I : list Cell -> Prop) (xs : list A) body :
  (forall x h, x ∈ xs -> I h -> exists h', body x h = Ok (tt, h') /\ I h') ->
  forall h, I h -> exists h', forEachM xs body h = Ok (tt, h') /\ I h'.
Proof.
  induction xs as [|x xs IH]; intros Hbody h HI.
  - exists h. done.
  - destruct (Hbody x h) as (h1 & H1 & HI1); [left|done|].
    destruct (IH (fun y h0 Hy => Hbody y h0 (list_elem_of_further _ _ _ Hy)) h1 HI1)
      as (h2 & H2 & HI2).
    exists h2. split; [|done].
    cbn [forEachM]. by rewrite (bind_Ok _ _ _ _ _ H1).
Qed.

Lemma forRange_inv (I : list Cell -> Prop) n body :
  (forall i h, (i < n)%nat -> I h -> exists h', body i h = Ok (tt, h') /\ I h') ->
  forall h, I h -> exists h', forRange n body h = Ok (tt, h') /\ I h'.
Proof.
  intros Hbody. apply forEachM_inv. intros i h Hi.
  apply Hbody. apply elem_of_seq in Hi. lia.
Qed.

(** ** The grid updater succeeds on every valid grid *)

Lemma updateGrid_updater_Ok p dt (g : list (list nat)) (h : list Cell) :
  valid h g ->
  exists h', updateGrid_updater p dt g h = Ok (g, h') /\ evolves h h'.
Proof.
  intros Hv. unfold updateGrid_updater.
  destruct (forRange_inv (evolves h) (length (map (fun r : list nat => r) g))
              (fun i => let* row := rowOf (map (fun r => r) g) i in
                        forRange (length row) (fun j =>
                          updateCell p dt g (map (fun r => r) g) i j)))
    with (h := h) as (h' & Hrun & Hev).
  - intros i h1 Hi Hev1. rewrite length_map in Hi.
    destruct (lookup_lt_is_Some_2 g i Hi) as [row Hrow].
    assert (Hrow' : map (fun r : list nat => r) g !! i = Some row)
      by by rewrite list_lookup_fmap, Hrow.
    rewrite (bind_Ok _ _ _ _ _ (rowOf_Ok _ _ _ h1 Hrow')).
    apply forRange_inv; [|done].
    intros j h2 Hj Hev2.
    destruct (lookup_lt_is_Some_2 row j Hj) as [l Hl].
    assert (Hv2 : valid h2 g) by (eapply valid_length; [apply Hev2|done]).
    destruct (lookup_lt_is_Some_2 h2 l (valid_lookup _ _ _ _ _ _ Hv2 Hrow Hl))
      as [c Hc].
    eexists. split; [exact (updateCell_Ok p dt h2 g i j row l c Hv2 Hrow Hl Hc)|].
    eapply evolves_trans; [exact Hev2|].
    eapply evolves_insert; [exact Hc|apply updatedCell_step].
  - apply evolves_refl.
  - exists h'. split; [|done].
    rewrite (bind_Ok _ _ _ _ _ Hrun). unfold ret. by rewrite map_id.
Qed.

Lemma updateGrid_Ok st :
  valid (heap st) (grid st) ->
  exists h', updateGrid st
             = Ok (with_timeStep (timeStep st + 1) (with_grid h' (grid st) st))
             /\ evolves (heap st) h'.
Proof.
  intros Hv.
  destruct (updateGrid_updater_Ok (params st) (timeStepSize st) _ _ Hv)
    as (h' & Hrun & Hev).
  exists h'. split; [|done].
  unfold updateGrid, setGrid. by rewrite Hrun.
Qed.

(** ** Well-formed component states *)

Lemma cellAt_Some st row col cell :
  cellAt st row col = Some cell ->
  exists rw l, grid st !! row = Some rw /\ rw !! col = Some l
               /\ heap st !! l = Some cell.
Proof.
  unfold cellAt. destruct (grid st !! row) as [rw|] eqn:Hr; [|done].
  destruct (rw !! col) as [l|] eqn:Hc; [|done].
  intros Hl. exists rw, l. auto.
Qed.

Lemma cellAt_intro st row col rw l :
  grid st !! row = Some rw -> rw !! col = Some l ->
  cellAt st row col = heap st !! l.
Proof. unfold cellAt. by intros -> ->. Qed.

Lemma cellAt_valid st row col rw l :
  valid (heap st) (grid st) ->
  grid st !! row = Some rw -> rw !! col = Some l ->
  is_Some (cellAt st row col).
Proof.
  intros Hv Hr Hc. rewrite (cellAt_intro _ _ _ _ _ Hr Hc).
  apply lookup_lt_is_Some_2. by eapply valid_lookup.
Qed.

Lemma historyEffect_Ok st :
  wf st ->
  historyEffect st
  = Ok (with_moistureHistory (sampledFrom (moistureHistory st) st) st).
Proof.
  intros [Hv Hsel]. unfold historyEffect, sampledFrom.
  destruct (selectedCell st) as [[row col]|] eqn:Hs.
  - destruct Hsel as [cell Hcell]. rewrite Hcell.
    destruct (cellAt_Some _ _ _ _ Hcell) as (rw & l & Hr & Hc & Hl).
    assert (Hlen : (0 <? length (grid st))%nat = true).
    { apply Nat.ltb_lt. apply lookup_lt_Some in Hr. lia. }
    rewrite Hlen.
    rewrite (bind_Ok _ _ _ _ _ (cellRef_Ok _ _ _ _ _ _ Hr Hc)).
    by rewrite (readCell_Ok _ _ _ Hl).
  - by destruct st.
Qed.

Lemma dialogCell_Some st row col :
  dialogCell st = Some (row, col) ->
  selectedCell st = Some (row, col)
  /\ exists rw l, grid st !! row = Some rw /\ rw !! col = Some l.
Proof.
  unfold dialogCell. destruct (selectedCell st) as [[r c]|]; [|done].
  destruct (grid st !! r) as [rw|] eqn:Hr; [|done].
  destruct (rw !! c) as [l|] eqn:Hc; [|done].
  intros [= -> ->]. split; [done|]. exists rw, l. auto.
Qed.

(** ** Replacing the selected cell by a fresh object *)

Lemma replaceCell_Ok f row col (g : list (list nat)) (h : list Cell) rw l c :
  g !! row = Some rw -> rw !! col = Some l -> h !! l = Some c ->
  replaceCell f row col g h
  = Ok (<[row := <[col := length h]> rw]> g, h ++ [f c]).
Proof.
  intros Hr Hc Hl. unfold replaceCell.
  rewrite (bind_Ok _ _ _ _ _ (rowOf_Ok _ _ _ _ Hr)).
  rewrite (bind_Ok _ _ _ _ _ (cellRef_Ok _ _ _ _ _ _ Hr Hc)).
  rewrite (bind_Ok _ _ _ _ _ (readCell_Ok _ _ _ Hl)).
  reflexivity.
Qed.

Section Replace.
Variables (st : Sim) (f : Cell -> Cell) (row col : nat).
Variables (rw : list nat) (l : nat) (c : Cell).
Hypothesis Hv : valid (heap st) (grid st).
Hypothesis Hr : grid st !! row = Some rw.
Hypothesis Hc : rw !! col = Some l.
Hypothesis Hl : heap st !! l = Some c.

Let st' : Sim :=
  with_grid (heap st ++ [f c]) (<[row := <[col := length (heap st)]> rw]> (grid st)) st.

Lemma replace_setGrid : setGrid (replaceCell f row col) st = Ok st'.
Proof.
  unfold setGrid. by rewrite (replaceCell_Ok f _ _ _ _ _ _ _ Hr Hc Hl).
Qed.

Lemma replace_valid : valid (heap st') (grid st').
Proof.
  subst st'. simpl. unfold valid in *.
  assert (Hmono : Forall (Forall (fun l0 => (l0 < length (heap st ++ [f c]))%nat))
                         (grid st)).
  { eapply Forall_impl; [exact Hv|]. intros r0 Hr0.
    eapply Forall_impl; [exact Hr0|]. intros l0 Hl0.
    rewrite length_app. simpl in *. lia. }
  apply Forall_insert; [exact Hmono|].
  apply Forall_insert.
  - exact (Forall_lookup_1 _ _ _ _ Hmono Hr).
  - rewrite length_app. simpl. lia.
Qed.

Lemma replace_shape : map length (grid st') = map length (grid st).
Proof.
  subst st'. simpl. rewrite list_fmap_insert, length_insert.
  apply list_insert_id. by rewrite list_lookup_fmap, Hr.
Qed.

Lemma replace_cellAt_eq : cellAt st' row col = Some (f c).
Proof.
  subst st'. unfold cellAt. simpl.
  rewrite list_lookup_insert_eq by by eapply lookup_lt_Some.
  rewrite list_lookup_insert_eq by by eapply lookup_lt_Some.
  by rewrite lookup_app_r, Nat.sub_diag.
Qed.

Lemma replace_cellAt_ne r0 c0 :
  (r0, c0) <> (row, col) -> cellAt st' r0 c0 = cellAt st r0 c0.
Proof.
  intros Hne. subst st'. unfold cellAt. simpl.
  destruct (decide (r0 = row)) as [->|Hrow].
  - rewrite list_lookup_insert_eq by by eapply lookup_lt_Some.
    rewrite Hr.
    rewrite list_lookup_insert_ne by congruence.
    destruct (rw !! c0) as [l0|] eqn:Hl0; [|done].
    apply lookup_app_l. eapply valid_lookup; eauto.
  - rewrite list_lookup_insert_ne by congruence.
    destruct (grid st !! r0) as [r1|] eqn:Hr1; [|done].
    destruct (r1 !! c0) as [l0|] eqn:Hl0; [|done].
    apply lookup_app_l. eapply valid_lookup; eauto.
Qed.
End Replace.

(** ** One event *)

Lemma cellAt_ext st1 st2 row col :
  heap st1 = heap st2 -> grid st1 = grid st2 ->
  cellAt st1 row col = cellAt st2 row col.
Proof. unfold cellAt. by intros -> ->. Qed.

Lemma sampledFrom_ext hist st1 st2 :
  heap st1 = heap st2 -> grid st1 = grid st2 ->
  timeStep st1 = timeStep st2 -> selectedCell st1 = selectedCell st2 ->
  sampledFrom hist st1 = sampledFrom hist st2.
Proof.
  intros Hh Hg Ht Hs. unfold sampledFrom. rewrite Hs, Ht.
  destruct (selectedCell st2) as [[r c]|]; [|done].
  by rewrite (cellAt_ext st1 st2 r c Hh Hg).
Qed.

Lemma trans_same_cells st row col cell :
  cellAt st row col = Some cell ->
  forall e, e <> StepForward ->
  exists cell', cellAt st row col = Some cell'
    /\ (inRange cell -> inRange cell')
    /\ (e = StepForward -> cell_step cell cell')
    /\ (~ is_reset_at e st row col ->
        overrideTap cell = true -> overrideTap cell' = true).
Proof.
  intros Hc e He. exists cell. split; [done|]. split; [auto|].
  split; [intros; contradiction|auto].
Qed.

Lemma click_trans st row col :
  wf st ->
  exists st', dispatch (Click row col) st = Ok st'
              /\ trans (Click row col) st st'.
Proof.
  intros Hwf. pose proof Hwf as [Hv Hsel]. simpl.
  destruct (cellAt st row col) as [cell|] eqn:Hcell.
  - assert (Hwf1 : wf (handleCellClick row col st)).
    { split; [exact Hv|]. simpl.
      rewrite (cellAt_ext _ st) by done. by rewrite Hcell. }
    rewrite (historyEffect_Ok _ Hwf1).
    eexists; split; [reflexivity|].
    split; simpl.
    + split; [exact Hv|]. simpl.
      rewrite (cellAt_ext _ st) by done. by rewrite Hcell.
    + done.
    + done.
    + by rewrite Hcell.
    + intros r c c0 Hc0. rewrite (cellAt_ext _ st) by done.
      by apply trans_same_cells.
    + rewrite Hcell. rewrite bool_decide_eq_true_2 by done.
      by apply sampledFrom_ext.
  - exists st. split; [done|].
    split; try done.
    + by rewrite Hcell.
    + intros r c c0 Hc0. by apply trans_same_cells.
    + simpl. rewrite Hcell. by rewrite bool_decide_eq_false_2 by by intros [? ?].
Qed.

Lemma step_trans st :
  wf st ->
  exists st', dispatch StepForward st = Ok st' /\ trans StepForward st st'.
Proof.
  intros [Hv Hsel]. simpl.
  destruct (updateGrid_Ok st Hv) as (h' & Hup & Hev).
  rewrite Hup. simpl.
  set (st1 := with_timeStep (timeStep st + 1) (with_grid h' (grid st) st)).
  assert (Hcells : forall r c cell, cellAt st r c = Some cell ->
            exists cell', cellAt st1 r c = Some cell' /\ cell_step cell cell').
  { intros r c cell Hcell.
    destruct (cellAt_Some _ _ _ _ Hcell) as (rw & l & Hr & Hc & Hl).
    destruct (proj2 Hev _ _ Hl) as (cell' & Hl' & Hstep).
    exists cell'. split; [|done].
    by rewrite (cellAt_intro st1 r c rw l Hr Hc). }
  assert (Hwf1 : wf st1).
  { split.
    - simpl. eapply valid_length; [apply Hev|done].
    - simpl. destruct (selectedCell st) as [[r c]|]; [|done].
      destruct Hsel as [cell Hcell].
      destruct (Hcells _ _ _ Hcell) as (cell' & Hcell' & _). by exists cell'. }
  rewrite (historyEffect_Ok _ Hwf1).
  eexists; split; [reflexivity|].
  split; simpl.
  - destruct Hwf1 as [Hv1 Hsel1]. split; [exact Hv1|]. simpl.
    simpl in Hsel1.
    destruct (selectedCell st) as [[r c]|]; [|done].
    by rewrite (cellAt_ext _ st1).
  - done.
  - done.
  - done.
  - intros r c cell Hcell.
    destruct (Hcells _ _ _ Hcell) as (cell' & Hcell' & Hstep).
    exists cell'. rewrite (cellAt_ext _ st1) by done.
    split; [done|]. split; [apply Hstep|]. split; [done|].
    intros _ Ho. destruct Hstep as (Ho' & _). congruence.
  - by apply sampledFrom_ext.
Qed.

Lemma replace_trans e f st row col :
  wf st -> dialogCell st = Some (row, col) ->
  match e with
  | ManualMoisture (Some _) | ToggleTap | ResetTapControl => True
  | _ => False
  end ->
  (forall c, inRange c -> inRange (f c)) ->
  (e = ResetTapControl \/ forall c, overrideTap (f c) = true) ->
  exists st', rbind (setGrid (replaceCell f row col) st) historyEffect = Ok st'
              /\ trans e st st'.
Proof.
  intros [Hv Hsel] Hd He Hrange Hover.
  destruct (dialogCell_Some _ _ _ Hd) as (Hs & rw & l & Hr & Hc).
  destruct (lookup_lt_is_Some_2 _ _ (valid_lookup _ _ _ _ _ _ Hv Hr Hc))
    as [c0 Hl].
  rewrite (replace_setGrid st f row col rw l c0 Hr Hc Hl). simpl.
  set (st1 := with_grid (heap st ++ [f c0])
                (<[row := <[col := length (heap st)]> rw]> (grid st)) st).
  pose proof (replace_valid st f row col rw c0 Hv Hr) as Hv1.
  pose proof (replace_cellAt_eq st f row col rw l c0 Hr Hc) as Heq.
  pose proof (replace_cellAt_ne st f row col rw c0 Hv Hr) as Hne.
  pose proof (replace_shape st f row col rw c0 Hr) as Hshape.
  fold st1 in Hv1, Heq, Hne, Hshape.
  assert (Hwf1 : wf st1).
  { split; [exact Hv1|]. simpl. rewrite Hs. by rewrite Heq. }
  rewrite (historyEffect_Ok _ Hwf1).
  eexists; split; [reflexivity|].
  assert (Hrun : runs_effect e st = true).
  { destruct e as [| |[v|]| | | | |]; try done; simpl;
      rewrite Hd; by rewrite ?bool_decide_eq_true_2 by done. }
  split; simpl.
  - split; [exact Hv1|]. simpl. rewrite Hs.
    rewrite (cellAt_ext _ st1) by done. by rewrite Heq.
  - exact Hshape.
  - by destruct e as [| |[v|]| | | | |].
  - by destruct e as [| |[v|]| | | | |].
  - intros r c cell Hcell. rewrite (cellAt_ext _ st1) by done.
    destruct (decide ((r, c) = (row, col))) as [[= -> ->]|Hrc].
    + exists (f c0). split; [exact Heq|].
      assert (cell = c0) as ->.
      { rewrite (cellAt_intro st row col rw l Hr Hc) in Hcell. congruence. }
      split; [apply Hrange|]. split.
      * intros ->. done.
      * intros Hnr Ho. destruct Hover as [->|Hover]; [|apply Hover].
        exfalso. apply Hnr. by split.
    + rewrite (Hne _ _ Hrc). exists cell. split; [done|].
      split; [done|]. split; [|done].
      intros ->. done.
  - rewrite Hrun. by apply sampledFrom_ext.
Qed.

Lemma frame_trans e st st' :
  wf st ->
  heap st' = heap st -> grid st' = grid st -> timeStep st' = timeStep st ->
  selectedCell st' = selectedCell st ->
  moistureHistory st' = moistureHistory st ->
  match e with StepForward | Click _ _ => False | _ => True end ->
  runs_effect e st = false ->
  trans e st st'.
Proof.
  intros [Hv Hsel] Hh Hg Ht Hs Hm He Hrun. split.
  - split; [by rewrite Hh, Hg|]. rewrite Hs.
    destruct (selectedCell st) as [[r c]|]; [|done].
    by rewrite (cellAt_ext st' st).
  - by rewrite Hg.
  - by destruct e.
  - by destruct e.
  - intros r c cell Hcell. rewrite (cellAt_ext st' st) by done.
    apply trans_same_cells; [done|]. by intros ->.
  - by rewrite Hrun.
Qed.

Lemma manual_inRange u v c :
  inRange (set_overrideTap true
             (set_moisture (Qmin 1 (Qmax 0 (newMoisture u v))) c)).
Proof.
  unfold inRange. simpl. split.
  - apply Q.min_glb; [discriminate|apply Q.le_max_l].
  - apply Q.le_min_l.
Qed.

(** Every event succeeds on a well-formed state. *)
Lemma dispatch_Ok e st :
  wf st -> exists st', dispatch e st = Ok st' /\ trans e st st'.
Proof.
  intros Hwf. destruct e as [row col| |value| | |k v|v|u].
  - by apply click_trans.
  - by apply step_trans.
  - simpl. destruct (dialogCell st) as [[row col]|] eqn:Hd.
    + destruct value as [v|].
      * unfold manualMoistureChange.
        apply replace_trans; try done.
        -- intros c _. apply manual_inRange.
        -- by right.
      * exists st. split; [done|]. apply frame_trans; try done.
        simpl. by rewrite andb_false_r.
    + exists st. split; [done|]. apply frame_trans; try done.
      simpl. rewrite Hd. by rewrite bool_decide_eq_false_2 by by intros [? ?].
  - simpl. destruct (dialogCell st) as [[row col]|] eqn:Hd.
    + unfold toggleTap. apply replace_trans; try done. by right.
    + exists st. split; [done|]. apply frame_trans; try done.
      simpl. rewrite Hd. by rewrite bool_decide_eq_false_2 by by intros [? ?].
  - simpl. destruct (dialogCell st) as [[row col]|] eqn:Hd.
    + unfold resetTapControl. apply replace_trans; try done. by left.
    + exists st. split; [done|]. apply frame_trans; try done.
      simpl. rewrite Hd. by rewrite bool_decide_eq_false_2 by by intros [? ?].
  - simpl. destruct (Qle_bool 0 v && Qle_bool v (paramMax k)).
    + eexists. split; [done|]. by apply frame_trans.
    + exists st. split; [done|]. by apply frame_trans.
  - simpl. destruct (Qle_bool (1 # 10) v && Qle_bool v 24).
    + eexists. split; [done|]. by apply frame_trans.
    + exists st. split; [done|]. by apply frame_trans.
  - simpl. eexists. split; [done|]. by apply frame_trans.
Qed.

(** Invariants of well-formed states carry over any sequence of events,
    and the sequence runs to its end. *)
Lemma run_inv (P : Sim -> Prop) :
  (forall e st st', wf st -> P st -> trans e st st' -> P st') ->
  forall tr st, wf st -> P st ->
    exists st', run tr st = Ok st' /\ wf st' /\ P st'.
Proof.
  intros HP tr. induction tr as [|e tr IH]; intros st Hwf HPst.
  - by exists st.
  - destruct (dispatch_Ok e st Hwf) as (st1 & Hd & Ht).
    destruct (IH st1 (trans_wf _ _ _ Ht) (HP _ _ _ Hwf HPst Ht))
      as (st' & Hrun & Hwf' & HP').
    exists st'. split; [|done]. simpl. by rewrite Hd.
Qed.

(** A position that holds a cell after an event held one before it. *)
Lemma trans_cell_before e st st' row col :
  wf st -> trans e st st' ->
  is_Some (cellAt st' row col) -> is_Some (cellAt st row col).
Proof.
  intros [Hv _] Ht [cell' Hcell'].
  destruct (cellAt_Some _ _ _ _ Hcell') as (rw' & l' & Hr' & Hc' & _).
  pose proof (trans_shape _ _ _ Ht) as Hshape.
  assert (Hlen : map length (grid st) !! row = Some (length rw')).
  { rewrite <- Hshape. by rewrite list_lookup_fmap, Hr'. }
  rewrite list_lookup_fmap in Hlen.
  destruct (grid st !! row) as [rw|] eqn:Hr; [|done].
  injection Hlen as Hlen.
  destruct (lookup_lt_is_Some_2 rw col) as [l Hc].
  { rewrite Hlen. by eapply lookup_lt_Some. }
  by eapply cellAt_valid.
Qed.

Lemma trans_gridInRange e st st' :
  wf st -> gridInRange st -> trans e st st' -> gridInRange st'.
Proof.
  intros Hwf Hin Ht row col cell' Hcell'.
  destruct (trans_cell_before e st st' row col Hwf Ht) as [cell Hcell];
    [by exists cell'|].
  destruct (trans_cells _ _ _ Ht _ _ _ Hcell) as (cell2 & Hcell2 & Hr & _).
  assert (cell2 = cell') as -> by congruence.
  apply Hr. by eapply Hin.
Qed.

Lemma updateGrid_cells st :
  valid (heap st) (grid st) ->
  exists st', updateGrid st = Ok st'
    /\ grid st' = grid st
    /\ timeStep st' = (timeStep st + 1)%nat
    /\ forall row col cell, cellAt st row col = Some cell ->
         exists cell', cellAt st' row col = Some cell' /\ cell_step cell cell'.
Proof.
  intros Hv. destruct (updateGrid_Ok st Hv) as (h' & Hup & Hev).
  eexists. split; [exact Hup|]. split; [done|]. split; [done|].
  intros row col cell Hcell.
  destruct (cellAt_Some _ _ _ _ Hcell) as (rw & l & Hr & Hc & Hl).
  destruct (proj2 Hev _ _ Hl) as (cell' & Hl' & Hstep).
  exists cell'. split; [|done].
  by rewrite (cellAt_intro
                (with_timeStep (timeStep st + 1) (with_grid h' (grid st) st))
                row col rw l Hr Hc).
Qed.

Lemma override_kept row col tr :
  forall st cell,
    wf st -> cellAt st row col = Some cell -> overrideTap cell = true ->
    no_clear row col tr st ->
    exists st1 cell1, run tr st = Ok st1 /\ wf st1
      /\ cellAt st1 row col = Some cell1 /\ overrideTap cell1 = true.
Proof.
  induction tr as [|e tr IH]; intros st cell Hwf Hcell Ho Hnc.
  - by exists st, cell.
  - destruct Hnc as [Hnr Hnc].
    destruct (dispatch_Ok e st Hwf) as (st1 & Hd & Ht).
    rewrite Hd in Hnc.
    destruct (trans_cells _ _ _ Ht _ _ _ Hcell) as (cell1 & Hcell1 & _ & _ & Hkeep).
    destruct (IH st1 cell1 (trans_wf _ _ _ Ht) Hcell1 (Hkeep Hnr Ho) Hnc)
      as (st2 & cell2 & Hrun & Hwf2 & Hcell2 & Ho2).
    exists st2, cell2. split; [|done]. simpl. by rewrite Hd.
Qed.

(** ** Two cells in a row *)

Lemma clamp_id m : 0 <= m <= 1 -> clamp m == m.
Proof.
  intros [H0 H1]. unfold clamp.
  rewrite (Q.min_r 1 m) by exact H1. apply Q.max_r. exact H0.
Qed.

Lemma Qltb_nonneg m : 0 <= m -> Qltb m 0 = false.
Proof. intros H. unfold Qltb. apply Qle_bool_iff in H. by rewrite H. Qed.

(** The updater on a one-row grid of two cells: the second pass starts
    from the heap the first pass left. *)
Lemma updater_two_cells p dt (ca cb : Cell) :
  let h0 := [ca; cb] in
  let g := [[0%nat; 1%nat]] in
  let ca' := updatedCell p dt
               (diffusionOf (diffusionCoefficient p)
                  (<[0%nat := fluxedCell p dt ca]> h0) 0 (neighborRefs g 0 0)) ca in
  let h1 := [ca'; cb] in
  let cb' := updatedCell p dt
               (diffusionOf (diffusionCoefficient p)
                  (<[1%nat := fluxedCell p dt cb]> h1) 1 (neighborRefs g 0 1)) cb in
  updateGrid_updater p dt g h0 = Ok (g, [ca'; cb']).
Proof.
  intros h0 g ca' h1 cb'.
  assert (Hv0 : valid h0 g) by (repeat constructor).
  assert (Hv1 : valid h1 g) by (repeat constructor).
  pose proof (updateCell_Ok p dt h0 g 0 0 [0; 1]%nat 0 ca Hv0 eq_refl eq_refl eq_refl) as Ha.
  pose proof (updateCell_Ok p dt h1 g 0 1 [0; 1]%nat 1 cb Hv1 eq_refl eq_refl eq_refl) as Hb.
  unfold updateGrid_updater, forRange.
  erewrite bind_Ok; [reflexivity|].
  change (length (map (fun row : list nat => row) g)) with 1%nat.
  cbn [seq forEachM].
  erewrite bind_Ok; [reflexivity|].
  cbv beta. erewrite bind_Ok by reflexivity.
  cbn [length seq forEachM].
  erewrite bind_Ok by exact Ha.
  erewrite bind_Ok by exact Hb.
  reflexivity.
Qed.

Lemma fluxedCell_off D m :
  0 <= m ->
  fluxedCell (mkParams D 0 0 0) 1 (mkCell m false false)
  = mkCell (m - 0 * 1) false false.
Proof.
  intros Hm. unfold fluxedCell. cbn [overrideTap negb moisture moistureThreshold].
  rewrite (Qltb_nonneg m Hm). reflexivity.
Qed.

Lemma mix_range D x y : 0 <= D <= 1 -> 0 <= x <= 1 -> 0 <= y <= 1 ->
  0 <= x - 0 * 1 + (0 + D * (y - (x - 0 * 1))) * 1 <= 1.
Proof. intros HD Hx Hy. split; nra. Qed.

(** In exact arithmetic the first cell of such a grid moves by
    [D * (mB - mA)] and the second by [D * (a - mB)], where [a] is the first
    cell's new moisture: the two changes add up to [D * D * (mB - mA)]
    instead of cancelling. *)
Lemma two_cells_step mA mB D :
  0 <= mA <= 1 -> 0 <= mB <= 1 -> 0 <= D <= 1 ->
  exists st' a b,
    updateGrid (twoCells mA mB D) = Ok st'
    /\ cellAt st' 0 0 = Some a /\ cellAt st' 0 1 = Some b
    /\ moisture a == mA + D * (mB - mA)
    /\ moisture b == mB + D * (moisture a - mB)
    /\ (moisture a - mA) + (moisture b - mB) == D * D * (mB - mA)
    /\ (0 < D -> ~ mA == mB ->
        ~ moisture a - mA == - (moisture b - mB)).
Proof.
  intros HA HB HD.
  pose proof (updater_two_cells (mkParams D 0 0 0) 1
                (mkCell mA false false) (mkCell mB false false)) as Hup.
  cbv zeta in Hup.
  rewrite !fluxedCell_off in Hup by tauto.
  eexists _, _, _. split.
  { unfold updateGrid, setGrid, twoCells. cbn [grid heap params timeStepSize].
    rewrite Hup. reflexivity. }
  split; [reflexivity|]. split; [reflexivity|].
  unfold updatedCell. rewrite !fluxedCell_off by tauto.
  cbn -[Qplus Qminus Qmult Qopp clamp Qle].
  clear Hup.
  pose proof (mix_range D mA mB HD HA HB) as HrA.
  remember (mA - 0 * 1 + (0 + D * (mB - (mA - 0 * 1))) * 1) as xA eqn:ExA.
  pose proof (clamp_id xA HrA) as HcA.
  pose proof (clamp_range xA) as HrA'.
  remember (clamp xA) as a eqn:Ea.
  pose proof (mix_range D mB a HD HB HrA') as HrB.
  remember (mB - 0 * 1 + (0 + D * (a - (mB - 0 * 1))) * 1) as xB eqn:ExB.
  pose proof (clamp_id xB HrB) as HcB.
  assert (Ha : a == mA + D * (mB - mA)) by (rewrite HcA, ExA; ring).
  assert (Hb : clamp xB == mB + D * (a - mB)) by (rewrite HcB, ExB; ring).
  assert (Hsum : a - mA + (clamp xB - mB) == D * D * (mB - mA))
    by (rewrite Hb, Ha; ring).
  split; [exact Ha|]. split; [exact Hb|]. split; [exact Hsum|].
  intros HD0 Hne Hopp.
  assert (Hz : D * D * (mB - mA) == 0) by (rewrite <- Hsum, Hopp; ring).
  destruct (Qmult_integral _ _ Hz) as [HDD|Hdiff].
  - destruct (Qmult_integral _ _ HDD) as [H0|H0];
      rewrite H0 in HD0; exact (Qlt_irrefl 0 HD0).
  - apply Hne. rewrite <- (Qplus_0_r mA), <- Hdiff. ring.
Qed.

(** X20.  On every 1x2 grid with moistures and diffusion coefficient in
    [0,1], time step 1 and no irrigation, evaporation or threshold, the
    second cell is updated from the first cell's new moisture, not from
    the one it had before the step: the first cell becomes
    [clamp (mA + D * (mB - mA))] and the second
    [clamp (mB + D * (a - mB))] with [a] the new moisture of the first. *)
Theorem second_cell_reads_first (mA mB D : Q) :
  0 <= mA <= 1 -> 0 <= mB <= 1 -> 0 <= D <= 1 ->
  exists st' a b,
    updateGrid (twoCells mA mB D) = Ok st'
    /\ cellAt st' 0 0 = Some a /\ cellAt st' 0 1 = Some b
    /\ moisture a == clamp (mA + D * (mB - mA))
    /\ moisture b == clamp (mB + D * (moisture a - mB)).
Proof.
  intros HA HB HD.
  destruct (two_cells_step mA mB D HA HB HD)
    as (st' & a & b & Hup & Ha & Hb & Hma & Hmb & _).
  exists st', a, b. split; [exact Hup|]. split; [exact Ha|]. split; [exact Hb|].
  assert (Hra : 0 <= mA + D * (mB - mA) <= 1) by (split; nra).
  assert (Hra' : 0 <= moisture a <= 1) by (rewrite Hma; exact Hra).
  assert (Hrb : 0 <= mB + D * (moisture a - mB) <= 1) by (split; nra).
  split.
  - rewrite (clamp_id _ Hra). exact Hma.
  - rewrite (clamp_id _ Hrb). exact Hmb.
Qed.

(** ** Properties of the engine *)

(** C2.  From a grid whose cells all have moisture in [0,1], every finite
    sequence of events (steps, cell selections, manual moisture writes, tap
    toggles, override resets, parameter inputs) runs without an exception
    and leaves every cell's moisture in [0,1]; as the sequence is
    arbitrary, this holds after each of its calls. *)
Theorem C2_moisture_stays_clamped (st : Sim) (tr : list Event) :
  wf st -> gridInRange st ->
  exists st', run tr st = Ok st' /\ gridInRange st'.
Proof.
  intros Hwf Hin.
  destruct (run_inv gridInRange trans_gridInRange tr st Hwf Hin)
    as (st' & Hrun & _ & Hin').
  by exists st'.
Qed.

(** C10.  A step keeps the grid's arrays and dimensions and the
    [overrideTap] flag of every cell. *)
Theorem C10_step_keeps_override_and_shape (st : Sim) :
  valid (heap st) (grid st) ->
  exists st', updateGrid st = Ok st'
    /\ length (grid st') = length (grid st)
    /\ map length (grid st') = map length (grid st)
    /\ forall row col cell, cellAt st row col = Some cell ->
         exists cell', cellAt st' row col = Some cell'
                       /\ overrideTap cell' = overrideTap cell.
Proof.
  intros Hv.
  destruct (updateGrid_cells st Hv) as (st' & Hup & Hg & _ & Hcells).
  exists st'. split; [done|]. rewrite Hg. split; [done|]. split; [done|].
  intros row col cell Hcell.
  destruct (Hcells _ _ _ Hcell) as (cell' & Hcell' & Ho & _).
  by exists cell'.
Qed.

(** C5.  Once a cell has [overrideTap = true], then after any sequence of
    events that does not reset the tap control of that cell, the cell is
    still overridden and a step leaves its [tapStatus] as it was,
    whatever its moisture and the threshold are. *)
Theorem C5_override_precedence (st : Sim) (tr : list Event)
    (row col : nat) (cell : Cell) :
  wf st -> cellAt st row col = Some cell -> overrideTap cell = true ->
  no_clear row col tr st ->
  exists st1 cell1 st2 cell2,
    run tr st = Ok st1
    /\ cellAt st1 row col = Some cell1 /\ overrideTap cell1 = true
    /\ updateGrid st1 = Ok st2
    /\ cellAt st2 row col = Some cell2
    /\ tapStatus cell2 = tapStatus cell1 /\ overrideTap cell2 = true.
Proof.
  intros Hwf Hcell Ho Hnc.
  destruct (override_kept row col tr st cell Hwf Hcell Ho Hnc)
    as (st1 & cell1 & Hrun & [Hv1 _] & Hcell1 & Ho1).
  destruct (updateGrid_cells st1 Hv1) as (st2 & Hup & _ & _ & Hcells).
  destruct (Hcells _ _ _ Hcell1) as (cell2 & Hcell2 & Ho2 & Ht2 & _).
  exists st1, cell1, st2, cell2.
  repeat split; try done.
  - by apply Ht2.
  - congruence.
Qed.

(** C9.  The 1x1 scenario: moisture 0.5 under threshold 0.6 turns the tap
    on and the first step yields 0.6; the second step finds the moisture
    at the threshold, turns the tap off and yields 0.55. *)
Theorem C9_single_cell_scenario :
  exists st1 c1 st2 c2,
    updateGrid scenario9 = Ok st1
    /\ cellAt st1 0 0 = Some c1
    /\ tapStatus c1 = true /\ moisture c1 == 6 # 10
    /\ updateGrid st1 = Ok st2
    /\ cellAt st2 0 0 = Some c2
    /\ tapStatus c2 = false /\ moisture c2 == 55 # 100.
Proof.
  do 4 eexists.
  split; [vm_compute; reflexivity|].
  split; [vm_compute; reflexivity|].
  split; [reflexivity|].
  split; [vm_compute; reflexivity|].
  split; [vm_compute; reflexivity|].
  split; [vm_compute; reflexivity|].
  split; [reflexivity|].
  vm_compute. reflexivity.
Qed.

(** C1 on the code.  In the 1x2 grid with moistures 0 and 1, D = 0.1 and
    no irrigation or evaporation, the first cell moves by
    D * (1 - 0) = 0.1, but the second cell reads the first cell's
    already updated moisture through [prevGrid], whose cell objects
    [newGrid] shares: it moves by 0.1 * (0.1 - 1) = -0.09, not by
    D * (0 - 1) = -0.1, and the two changes are not opposite.
    [two_cells_step] gives the same for every such grid. *)
Theorem C1_second_cell_reads_updated_neighbor :
  exists st' a b,
    updateGrid demo2 = Ok st'
    /\ cellAt st' 0 0 = Some a /\ cellAt st' 0 1 = Some b
    /\ moisture a - 0 == (1 # 10) * (1 - 0)
    /\ moisture b - 1 == (1 # 10) * (moisture a - 1)
    /\ moisture b - 1 == - (9 # 100)
    /\ ~ moisture b - 1 == (1 # 10) * (0 - 1)
    /\ ~ moisture a - 0 == - (moisture b - 1).
Proof.
  do 3 eexists.
  split; [vm_compute; reflexivity|].
  split; [vm_compute; reflexivity|].
  split; [vm_compute; reflexivity|].
  repeat split; vm_compute; congruence.
Qed.

(** C4, as stated, fails: a step in the state of the first render, before
    any grid is installed, throws nothing and advances the tick counter. *)
Lemma C4_counterexample :
  updateGrid initialSim = Ok (with_timeStep 1 initialSim)
  /\ ~ exists e, updateGrid initialSim = Throw e.
Proof.
  split; [reflexivity|]. intros [e He]. discriminate He.
Qed.

(** C4, amended.  A step has no failure mode: on every state whose grid
    references are valid, the empty grid of the first render included, it
    returns a state with the same grid arrays and advances the tick
    counter by exactly 1. *)
Theorem C4_step_never_fails (st : Sim) :
  valid (heap st) (grid st) ->
  exists st', updateGrid st = Ok st'
              /\ grid st' = grid st
              /\ timeStep st' = (timeStep st + 1)%nat.
Proof.
  intros Hv.
  destruct (updateGrid_cells st Hv) as (st' & Hup & Hg & Ht & _).
  by exists st'.
Qed.

Lemma C4_step_never_fails_witness :
  valid (heap initialSim) (grid initialSim)
  /\ exists st', updateGrid initialSim = Ok st'
                 /\ grid st' = grid initialSim
                 /\ timeStep st' = (timeStep initialSim + 1)%nat.
Proof.
  assert (Hv : valid (heap initialSim) (grid initialSim)) by constructor.
  split; [exact Hv|]. exact (C4_step_never_fails initialSim Hv).
Defined.

(** The two-cell grid of [demo2] is well formed and in range. *)
Lemma demo2_wf : wf demo2.
Proof.
  split; [|exact I]. unfold valid. simpl.
  repeat constructor.
Qed.

Lemma demo2_inRange : gridInRange demo2.
Proof.
  intros [|row] col cell; [|by destruct row].
  destruct col as [|[|col]]; unfold cellAt; simpl;
    intros [= <-]; split; discriminate.
Qed.

Lemma C2_moisture_stays_clamped_witness :
  wf demo2 /\ gridInRange demo2
  /\ exists st',
       run [Click 0 1; StepForward; ManualMoisture (Some 250); ToggleTap;
            StepForward; ResetTapControl; StepForward] demo2 = Ok st'
       /\ gridInRange st'.
Proof.
  split; [exact demo2_wf|]. split; [exact demo2_inRange|].
  exact (C2_moisture_stays_clamped demo2 _ demo2_wf demo2_inRange).
Defined.

Lemma C10_step_keeps_override_and_shape_witness :
  valid (heap demo2) (grid demo2)
  /\ exists st', updateGrid demo2 = Ok st'
       /\ length (grid st') = length (grid demo2)
       /\ map length (grid st') = map length (grid demo2)
       /\ forall row col cell, cellAt demo2 row col = Some cell ->
            exists cell', cellAt st' row col = Some cell'
                          /\ overrideTap cell' = overrideTap cell.
Proof.
  split; [exact (proj1 demo2_wf)|].
  exact (C10_step_keeps_override_and_shape demo2 (proj1 demo2_wf)).
Defined.

Lemma demoOverride_wf : wf demoOverride.
Proof. split; [|exact I]. unfold valid. simpl. repeat constructor. Qed.

Lemma demoOverride_no_clear :
  no_clear 0 1 [StepForward; Click 0 0; ResetTapControl; StepForward;
                Click 0 1; ManualMoisture (Some 5); StepForward]
           demoOverride.
Proof.
  vm_compute. unfold is_reset_at.
  repeat split; intros [H1 H2]; discriminate.
Qed.

Lemma C5_override_precedence_witness :
  wf demoOverride
  /\ cellAt demoOverride 0 1 = Some (mkCell (9 # 10) true true)
  /\ overrideTap (mkCell (9 # 10) true true) = true
  /\ no_clear 0 1 [StepForward; Click 0 0; ResetTapControl; StepForward;
                   Click 0 1; ManualMoisture (Some 5); StepForward]
              demoOverride
  /\ exists st1 cell1 st2 cell2,
       run [StepForward; Click 0 0; ResetTapControl; StepForward;
            Click 0 1; ManualMoisture (Some 5); StepForward] demoOverride
       = Ok st1
       /\ cellAt st1 0 1 = Some cell1 /\ overrideTap cell1 = true
       /\ updateGrid st1 = Ok st2
       /\ cellAt st2 0 1 = Some cell2
       /\ tapStatus cell2 = tapStatus cell1 /\ overrideTap cell2 = true.
Proof.
  split; [exact demoOverride_wf|].
  split; [reflexivity|]. split; [reflexivity|].
  split; [exact demoOverride_no_clear|].
  exact (C5_override_precedence demoOverride _ 0 1 _ demoOverride_wf
           eq_refl eq_refl demoOverride_no_clear).
Defined.

(** ** Grid creation *)

Lemma mapM_alloc {X} (F : X -> Cell) (xs : list X) (h : list Cell) :
  mapM (fun x => alloc (F x)) xs h
  = Ok (seq (length h) (length xs), h ++ map F xs).
Proof.
  revert h. induction xs as [|x xs IH]; intros h.
  - simpl. unfold ret. by rewrite app_nil_r.
  - cbn [mapM].
    erewrite bind_Ok by reflexivity.
    erewrite bind_Ok by apply IH.
    unfold ret. simpl. rewrite length_app. simpl.
    rewrite Nat.add_1_r. by rewrite <- app_assoc.
Qed.

Lemma Array_Ok z (h : list Cell) :
  (0 <= z < 2 ^ 32)%Z -> Array_ (Some z) h = Ok (Z.to_nat z, h).
Proof.
  intros Hz. unfold Array_.
  destruct (Z.leb_spec 0 z); [|lia]. destruct (Z.ltb_spec z (2 ^ 32)); [|lia].
  reflexivity.
Qed.

(** The rows created from row index [s] on, [m] of them, [n] cells each. *)
Lemma initRows_Ok (mk : nat -> Cell) (cols : Z) (n : nat) :
  (0 <= cols < 2 ^ 32)%Z -> n = Z.to_nat cols ->
  forall m s (h : list Cell),
  exists g h',
    mapM (fun r => let* ncols := Array_ (Some cols) in
                   mapM (fun c => alloc (mk (r * ncols + c)%nat)) (seq 0 ncols))
         (seq s m) h = Ok (g, h')
    /\ length g = m
    /\ length h' = (length h + m * n)%nat
    /\ (forall l, (l < length h)%nat -> h' !! l = h !! l)
    /\ forall i row, g !! i = Some row ->
         length row = n
         /\ forall c, (c < n)%nat ->
              exists l, row !! c = Some l /\ (length h <= l)%nat
                        /\ h' !! l = Some (mk ((s + i) * n + c)%nat).
Proof.
  intros Hcols ->. induction m as [|m IH]; intros s h.
  - exists [], h. simpl. unfold ret. split; [done|]. split; [done|].
    split; [lia|]. split; [done|]. intros i row Hi. done.
  - set (n := Z.to_nat cols).
    set (h1 := h ++ map (fun c => mk (s * n + c)%nat) (seq 0 n)).
    assert (Hlen1 : length h1 = (length h + n)%nat).
    { subst h1. by rewrite length_app, length_map, length_seq. }
    destruct (IH (S s) h1) as (g & h' & Hrun & Hg & Hh' & Hkeep & Hrows).
    exists (seq (length h) n :: g), h'.
    split.
    { cbn [seq mapM].
      erewrite bind_Ok; cycle 1.
      { erewrite bind_Ok by by apply Array_Ok.
        fold n. rewrite (mapM_alloc (fun c => mk (s * n + c)%nat)).
        rewrite length_seq. reflexivity. }
      fold h1. erewrite bind_Ok by exact Hrun. reflexivity. }
    split; [simpl; lia|]. split; [lia|].
    split.
    { intros l Hl. rewrite Hkeep by lia. subst h1. by apply lookup_app_l. }
    intros [|i] row Hi.
    + injection Hi as <-. split; [apply length_seq|].
      intros c Hc. exists (length h + c)%nat.
      split; [by apply lookup_seq_lt|]. split; [lia|].
      rewrite Hkeep by lia. subst h1.
      rewrite lookup_app_r by lia.
      replace (length h + c - length h)%nat with c by lia.
      rewrite list_lookup_fmap, lookup_seq_lt by done.
      simpl. do 3 f_equal. lia.
    + destruct (Hrows i row Hi) as [Hrl Hcs]. split; [done|].
      intros c Hc. destruct (Hcs c Hc) as (l & Hl & Hge & Hl').
      exists l. split; [done|]. split; [lia|].
      rewrite Hl'. do 3 f_equal. lia.
Qed.

(** C3, as stated, fails: zero rows, zero columns and a seed of 150%
    all create a grid; the seed 150% is stored as the moisture 1.5. *)
Lemma C3_counterexample :
  initializeGrid (Some 0%Z) (Some 5%Z) "uniform" 50 (fun _ => 0) [] = Ok ([], [])
  /\ initializeGrid (Some 1%Z) (Some 0%Z) "uniform" 50 (fun _ => 0) []
     = Ok ([[]], [])
  /\ exists g h c,
       initializeGrid (Some 1%Z) (Some 1%Z) "uniform" 150 (fun _ => 0) []
       = Ok (g, h)
       /\ h !! 0%nat = Some c /\ moisture c == 3 # 2 /\ ~ moisture c <= 1.
Proof.
  split; [reflexivity|]. split; [reflexivity|].
  do 3 eexists. split; [vm_compute; reflexivity|].
  split; [reflexivity|]. split; [reflexivity|].
  vm_compute. intros H. apply H. reflexivity.
Qed.

Lemma Array_throw n (h : list Cell) :
  ~ isLength n -> Array_ n h = Throw RangeError.
Proof.
  intros Hn. unfold Array_. destruct n as [z|]; [|done].
  destruct (Z.leb_spec 0 z); [|done]. destruct (Z.ltb_spec z (2 ^ 32)); [|done].
  destruct Hn. exists z. split; [done|lia].
Qed.

Lemma isLength_dec n :
  (exists z, n = Some z /\ (0 <= z < 2 ^ 32)%Z) \/ ~ isLength n.
Proof.
  destruct n as [z|].
  - destruct (Z.leb_spec 0 z); [destruct (Z.ltb_spec z (2 ^ 32))|].
    + left. exists z. split; [done|lia].
    + right. intros (z' & [= <-] & Hz). lia.
    + right. intros (z' & [= <-] & Hz). lia.
  - right. by intros (z' & Hz & _).
Qed.

(** With at least one row, the first row is where [Array(cols)] runs
    first. *)
Lemma initializeGrid_bad_cols r cols mode pct random (h : list Cell) :
  (0 < r < 2 ^ 32)%Z -> ~ isLength cols ->
  initializeGrid (Some r) cols mode pct random h = Throw RangeError.
Proof.
  intros Hr Hc. unfold initializeGrid.
  erewrite bind_Ok by (apply Array_Ok; lia).
  destruct (Z.to_nat r) as [|m] eqn:Hm; [lia|].
  cbn [seq mapM]. unfold bind at 1 2. by rewrite Array_throw.
Qed.

(** C3, amended.  [initializeGrid] validates nothing itself and fails
    exactly when [Array] does: it throws, and then a [RangeError], if and
    only if the row count is not an integer from 0 to 2^32 - 1 (negative,
    too large or [NaN]), or there is at least one row and the column
    count is not such an integer.  With no row it returns the empty grid
    whatever the column count is.  For [0 <= rows, cols < 2^32] it returns
    [rows] rows of [cols] fresh cells each, every cell with
    [tapStatus = false], [overrideTap = false] and, in uniform mode, the
    moisture [uniformPercent / 100] whether or not that lies in [0,1]
    (in random mode, the next value of the random source). *)
Theorem C3_initializeGrid (rows cols : option Z) (mode : string) (pct : Q)
    (random : nat -> Q) (h : list Cell) :
  (forall e,
     initializeGrid rows cols mode pct random h = Throw e
     <-> e = RangeError
         /\ (~ isLength rows \/ (rows <> Some 0%Z /\ ~ isLength cols)))
  /\ (rows = Some 0%Z ->
        initializeGrid rows cols mode pct random h = Ok ([], h))
  /\ (forall r c, rows = Some r -> cols = Some c ->
        (0 <= r < 2 ^ 32)%Z -> (0 <= c < 2 ^ 32)%Z ->
        exists g h',
          initializeGrid rows cols mode pct random h = Ok (g, h')
          /\ length g = Z.to_nat r
          /\ (forall l, (l < length h)%nat -> h' !! l = h !! l)
          /\ forall i row, g !! i = Some row ->
               length row = Z.to_nat c
               /\ forall j, (j < Z.to_nat c)%nat ->
                    exists l, row !! j = Some l /\ (length h <= l)%nat
                      /\ h' !! l
                         = Some (mkCell
                                   (if String.eqb mode "uniform"
                                    then pct / 100
                                    else random (i * Z.to_nat c + j)%nat)
                                   false false)).
Proof.
  assert (Hzero : rows = Some 0%Z ->
            initializeGrid rows cols mode pct random h = Ok ([], h)).
  { intros ->. reflexivity. }
  assert (Hgood : forall r c, rows = Some r -> cols = Some c ->
            (0 <= r < 2 ^ 32)%Z -> (0 <= c < 2 ^ 32)%Z ->
            exists g h',
              initializeGrid rows cols mode pct random h = Ok (g, h')
              /\ length g = Z.to_nat r
              /\ (forall l, (l < length h)%nat -> h' !! l = h !! l)
              /\ forall i row, g !! i = Some row ->
                   length row = Z.to_nat c
                   /\ forall j, (j < Z.to_nat c)%nat ->
                        exists l, row !! j = Some l /\ (length h <= l)%nat
                          /\ h' !! l
                             = Some (newCell mode (pct / 100) random
                                             (i * Z.to_nat c + j)%nat)).
  { intros r c -> -> Hr Hc. unfold initializeGrid.
    erewrite bind_Ok by (apply Array_Ok; lia).
    destruct (initRows_Ok (newCell mode (pct / 100) random) c
                (Z.to_nat c) Hc eq_refl (Z.to_nat r) 0%nat h)
      as (g & h' & Hrun & Hg & _ & Hkeep & Hrows).
    exists g, h'. split; [exact Hrun|]. split; [done|]. split; [done|].
    intros i row Hi. destruct (Hrows i row Hi) as [Hl Hcs].
    split; [done|]. intros j Hj.
    destruct (Hcs j Hj) as (l & Hl1 & Hl2 & Hl3).
    exists l. split; [done|]. split; [done|]. exact Hl3. }
  split; [|split; [exact Hzero|exact Hgood]].
  intros e. split.
  - intros Hthrow.
    destruct (isLength_dec rows) as [(r & Hrows & Hr)|Hbad].
    + destruct (decide (r = 0%Z)) as [->|Hr0].
      { rewrite (Hzero Hrows) in Hthrow. discriminate. }
      destruct (isLength_dec cols) as [(c & Hcols & Hc)|Hbadc].
      * destruct (Hgood r c Hrows Hcols Hr Hc) as (g & h' & Hrun & _).
        rewrite Hrun in Hthrow. discriminate.
      * subst rows.
        rewrite initializeGrid_bad_cols in Hthrow by (done || lia).
        injection Hthrow as <-. split; [done|]. right. split; [congruence|done].
    + unfold initializeGrid, bind in Hthrow.
      rewrite (Array_throw _ _ Hbad) in Hthrow.
      injection Hthrow as <-. split; [done|]. by left.
  - intros [-> [Hbad|[Hr0 Hbadc]]].
    + unfold initializeGrid, bind. by rewrite (Array_throw _ _ Hbad).
    + destruct (isLength_dec rows) as [(r & -> & Hr)|Hbad].
      * apply initializeGrid_bad_cols; [|done].
        assert (r <> 0%Z) by congruence. lia.
      * unfold initializeGrid, bind. by rewrite (Array_throw _ _ Hbad).
Qed.

Lemma C3_initializeGrid_witness :
  (0 <= 2 < 2 ^ 32)%Z /\ (0 <= 3 < 2 ^ 32)%Z
  /\ exists g h',
       initializeGrid (Some 2%Z) (Some 3%Z) "uniform" 150 (fun _ => 0) []
       = Ok (g, h')
       /\ length g = 2%nat
       /\ forall i row, g !! i = Some row ->
            length row = 3%nat
            /\ forall j, (j < 3)%nat ->
                 exists l, row !! j = Some l
                   /\ h' !! l = Some (mkCell (150 / 100) false false).
Proof.
  assert (H2 : (0 <= 2 < 2 ^ 32)%Z) by lia.
  assert (H3 : (0 <= 3 < 2 ^ 32)%Z) by lia.
  split; [exact H2|]. split; [exact H3|].
  destruct (proj2 (proj2 (C3_initializeGrid (Some 2%Z) (Some 3%Z) "uniform" 150
                            (fun _ => 0) []))
              2%Z 3%Z eq_refl eq_refl H2 H3) as (g & h' & Hrun & Hg & _ & Hrows).
  exists g, h'. split; [exact Hrun|]. split; [exact Hg|].
  intros i row Hi. destruct (Hrows i row Hi) as [Hl Hcs].
  split; [exact Hl|]. intros j Hj.
  destruct (Hcs j Hj) as (l & Hl1 & _ & Hl3).
  exists l. split; [exact Hl1|exact Hl3].
Defined.

(** ** Neighbours *)

Section Square.
Variables (N : nat) (g : list (list nat)).
Hypothesis HN : (3 <= N)%nat.
Hypothesis Hrows : length g = N.
Hypothesis Hcols : Forall (fun row => length row = N) g.




End Square.





(** ** History sampling *)

Lemma length_slice_last {A} n (xs : list A) :
  (length (slice_last n xs) <= n)%nat.
Proof. unfold slice_last. rewrite length_drop. lia. Qed.

Lemma slice_last_app_one {A} (xs : list A) x :
  slice_last 20 (slice_last 20 xs ++ [x]) = slice_last 20 (xs ++ [x]).
Proof.
  unfold slice_last. rewrite !length_app, length_drop. simpl.
  destruct (decide (length xs <= 20)%nat) as [Hle|Hgt].
  - replace (length xs - 20)%nat with 0%nat by lia. simpl.
    do 2 f_equal. lia.
  - replace (length xs - (length xs - 20) + 1 - 20)%nat with 1%nat by lia.
    rewrite !drop_app_le by (rewrite ?length_drop; lia).
    rewrite drop_drop. do 2 f_equal. lia.
Qed.

Lemma slice_last_app_long {A} (xs ys : list A) n :
  (n <= length ys)%nat ->
  slice_last n (xs ++ ys) = drop (length ys - n) ys.
Proof.
  intros Hn. unfold slice_last. rewrite length_app.
  rewrite drop_app_ge by lia. f_equal. lia.
Qed.

Lemma trans_sample e st st' row col :
  trans e st st' -> runs_effect e st = true ->
  selectedCell st' = Some (row, col) ->
  exists cell, cellAt st' row col = Some cell
    /\ moistureHistory st'
       = slice_last 20 (moistureHistory st
                        ++ [mkSample (timeStep st') (moisture cell)]).
Proof.
  intros Ht Hrun Hsel.
  pose proof (trans_wf _ _ _ Ht) as [_ Hs]. rewrite Hsel in Hs.
  destruct Hs as [cell Hcell]. exists cell. split; [done|].
  rewrite (trans_history _ _ _ Ht), Hrun.
  unfold sampledFrom. by rewrite Hsel, Hcell.
Qed.

(** [n] steps while [(row, col)] is observed. *)
Lemma steps_history row col n :
  forall st, wf st -> selectedCell st = Some (row, col) ->
  exists st' samples,
    run (repeat StepForward n) st = Ok st'
    /\ length samples = n
    /\ (forall hist0, moistureHistory st = slice_last 20 hist0 ->
          moistureHistory st' = slice_last 20 (hist0 ++ samples))
    /\ forall k, (k < n)%nat ->
         exists stk cell,
           run (repeat StepForward (S k)) st = Ok stk
           /\ cellAt stk row col = Some cell
           /\ timeStep stk = (timeStep st + S k)%nat
           /\ samples !! k
              = Some (mkSample (timeStep st + S k) (moisture cell)).
Proof.
  induction n as [|n IH]; intros st Hwf Hsel.
  - exists st, []. split; [done|]. split; [done|]. split.
    + intros hist0 ->. by rewrite app_nil_r.
    + intros k Hk. lia.
  - destruct (dispatch_Ok StepForward st Hwf) as (st1 & Hd & Ht).
    assert (Hsel1 : selectedCell st1 = Some (row, col))
      by by rewrite (trans_selected _ _ _ Ht).
    pose proof (trans_time _ _ _ Ht) as Htime. cbv iota in Htime.
    destruct (trans_sample _ _ _ row col Ht eq_refl Hsel1)
      as (cell1 & Hcell1 & Hhist1).
    rewrite Htime in Hhist1.
    destruct (IH st1 (trans_wf _ _ _ Ht) Hsel1)
      as (st' & samples & Hrun & Hlen & Hhist & Hidx).
    exists st', (mkSample (timeStep st + 1) (moisture cell1) :: samples).
    split; [|split; [|split]].
    + cbn [repeat run]. by rewrite Hd.
    + simpl. by rewrite Hlen.
    + intros hist0 Hh0.
      rewrite (Hhist (hist0 ++ [mkSample (timeStep st + 1) (moisture cell1)])).
      * by rewrite <- app_assoc.
      * rewrite Hhist1, Hh0. apply slice_last_app_one.
    + intros [|k] Hk.
      * exists st1, cell1. split.
        { cbn [repeat run]. by rewrite Hd. }
        split; [done|]. split; [lia|]. done.
      * destruct (Hidx k) as (stk & cell & Hrk & Hck & Htk & Hsk); [lia|].
        exists stk, cell. split.
        { change (repeat StepForward (S (S k)))
            with (StepForward :: repeat StepForward (S k)).
          cbn [run]. by rewrite Hd. }
        split; [done|]. split; [lia|].
        simpl. rewrite Hsk. do 2 f_equal. lia.
Qed.

Lemma trans_history_bound e st st' :
  wf st -> (length (moistureHistory st) <= 20)%nat -> trans e st st' ->
  (length (moistureHistory st') <= 20)%nat.
Proof.
  intros _ Hle Ht. rewrite (trans_history _ _ _ Ht).
  destruct (runs_effect e st); [|done].
  unfold sampledFrom. destruct (selectedCell st') as [[r c]|]; [|done].
  destruct (cellAt st' r c); [apply length_slice_last|done].
Qed.

(** C6.  After clicking a cell of the grid and stepping 25 times the
    history has exactly 20 entries; entry [k] is the tick
    [timeStep + 6 + k] paired with the cell's moisture after [6 + k]
    steps, so the entries are the 20 most recent samples in strictly
    increasing tick order.  Moreover a history of at most 20 entries
    never grows beyond 20 under any sequence of events. *)
Theorem C6_history_bounded (st : Sim) (row col : nat) :
  wf st -> is_Some (cellAt st row col) ->
  (exists final,
     run (Click row col :: repeat StepForward 25) st = Ok final
     /\ length (moistureHistory final) = 20%nat
     /\ (forall k, (k < 20)%nat ->
           exists stk cell,
             run (Click row col :: repeat StepForward (6 + k)) st = Ok stk
             /\ cellAt stk row col = Some cell
             /\ timeStep stk = (timeStep st + 6 + k)%nat
             /\ moistureHistory final !! k
                = Some (mkSample (timeStep st + 6 + k) (moisture cell)))
     /\ forall k s1 s2,
          moistureHistory final !! k = Some s1 ->
          moistureHistory final !! S k = Some s2 ->
          (time s1 < time s2)%nat)
  /\ ((length (moistureHistory st) <= 20)%nat ->
      forall tr, exists st',
        run tr st = Ok st' /\ (length (moistureHistory st') <= 20)%nat).
Proof.
  intros Hwf Hcell. split.
  - destruct (dispatch_Ok (Click row col) st Hwf) as (st0 & Hd & Ht).
    pose proof (trans_selected _ _ _ Ht) as Hsel0. cbv iota beta in Hsel0.
    destruct Hcell as [cell0 Hcell0]. rewrite Hcell0 in Hsel0.
    pose proof (trans_time _ _ _ Ht) as Htime0. cbv iota in Htime0.
    assert (Hrun0 : runs_effect (Click row col) st = true).
    { simpl. rewrite Hcell0. by apply bool_decide_eq_true_2. }
    destruct (trans_sample _ _ _ row col Ht Hrun0 Hsel0)
      as (c0 & Hc0 & Hhist0).
    destruct (steps_history row col 25 st0 (trans_wf _ _ _ Ht) Hsel0)
      as (final & samples & Hrun & Hlen & Hhist & Hidx).
    assert (Hfinal : moistureHistory final = drop 5 samples).
    { rewrite (Hhist _ Hhist0).
      rewrite slice_last_app_long by lia. f_equal. lia. }
    assert (Hentry : forall k, (k < 20)%nat ->
              exists stk cell,
                run (Click row col :: repeat StepForward (6 + k)) st = Ok stk
                /\ cellAt stk row col = Some cell
                /\ timeStep stk = (timeStep st + 6 + k)%nat
                /\ moistureHistory final !! k
                   = Some (mkSample (timeStep st + 6 + k) (moisture cell))).
    { intros k Hk.
      destruct (Hidx (5 + k)%nat) as (stk & cell & Hrk & Hck & Htk & Hsk); [lia|].
      exists stk, cell. split.
      { cbn [run]. rewrite Hd. exact Hrk. }
      split; [done|]. split; [lia|].
      rewrite Hfinal, lookup_drop, Hsk. do 2 f_equal. lia. }
    exists final. split.
    { cbn [run]. rewrite Hd. exact Hrun. }
    split; [rewrite Hfinal, length_drop; lia|].
    split; [exact Hentry|].
    intros k s1 s2 H1 H2.
    assert (Hk : (S k < 20)%nat).
    { apply lookup_lt_Some in H2. rewrite Hfinal, length_drop in H2. lia. }
    destruct (Hentry k) as (_ & c1 & _ & _ & _ & He1); [lia|].
    destruct (Hentry (S k) Hk) as (_ & c2 & _ & _ & _ & He2).
    rewrite H1 in He1. rewrite H2 in He2.
    injection He1 as ->. injection He2 as ->. simpl. lia.
  - intros Hle tr.
    destruct (run_inv (fun s => (length (moistureHistory s) <= 20)%nat)
                trans_history_bound tr st Hwf Hle) as (st' & Hrun & _ & Hle').
    by exists st'.
Qed.

Lemma C6_history_bounded_witness :
  wf demo2 /\ is_Some (cellAt demo2 0 1)
  /\ exists final,
       run (Click 0 1 :: repeat StepForward 25) demo2 = Ok final
       /\ length (moistureHistory final) = 20%nat.
Proof.
  assert (Hc : is_Some (cellAt demo2 0 1)) by (eexists; reflexivity).
  split; [exact demo2_wf|]. split; [exact Hc|].
  destruct (proj1 (C6_history_bounded demo2 0 1 demo2_wf Hc))
    as (final & Hrun & Hlen & _).
  exists final. split; [exact Hrun|exact Hlen].
Defined.




(** ** The loops of a step, position by position *)

Lemma forEachM_seq_ind (I : nat -> list Cell -> Prop) body n :
  forall s h,
    (forall k h, (s <= k < s + n)%nat -> I k h ->
       exists h', body k h = Ok (tt, h') /\ I (S k) h') ->
    I s h ->
    exists h', forEachM (seq s n) body h = Ok (tt, h') /\ I (s + n)%nat h'.
Proof.
  induction n as [|n IH]; intros s h Hbody HI.
  - exists h. rewrite Nat.add_0_r. done.
  - destruct (Hbody s h) as (h1 & H1 & HI1); [lia|done|].
    destruct (IH (S s) h1) as (h2 & H2 & HI2); [|done|].
    { intros k h0 Hk. apply Hbody. lia. }
    exists h2. split.
    + cbn [seq forEachM]. by rewrite (bind_Ok _ _ _ _ _ H1).
    + by replace (s + S n)%nat with (S s + n)%nat by lia.
Qed.

Lemma forRange_ind (I : nat -> list Cell -> Prop) n body h :
  (forall k h, (k < n)%nat -> I k h ->
     exists h', body k h = Ok (tt, h') /\ I (S k) h') ->
  I 0%nat h ->
  exists h', forRange n body h = Ok (tt, h') /\ I n h'.
Proof.
  intros Hbody HI.
  destruct (forEachM_seq_ind I body n 0 h) as (h' & Hrun & HI'); [|done|].
  - intros k h0 Hk. apply Hbody. lia.
  - by exists h'.
Qed.

Lemma refAt_lookup (g : list (list nat)) i j row :
  g !! i = Some row -> refAt g i j = row !! j.
Proof. unfold refAt. by intros ->. Qed.

Lemma refAt_Some (g : list (list nat)) i j l :
  refAt g i j = Some l -> exists row, g !! i = Some row /\ row !! j = Some l.
Proof.
  unfold refAt. destruct (g !! i) as [row|] eqn:Hi; [|done].
  intros Hj. by exists row.
Qed.

Section Processed.
Variables (p : SimulationParams) (dt : Q) (g : list (list nat)).
Variables (h0 : list Cell).
Variables (R : Cell -> Cell -> Prop) (J : list Cell -> Prop).
Variable again : Prop.
Hypothesis Hv : valid h0 g.
Hypothesis Hpass :
  forall h i j l c0 c,
    refAt g i j = Some l -> h0 !! l = Some c0 -> h !! l = Some c ->
    length h = length h0 -> J h ->
    (c = c0 \/ (again /\ R c0 c)) ->
    R c0 (passResult p dt g h l i j c)
    /\ J (<[l := passResult p dt g h l i j c]> h).
Hypothesis Hagain : again \/ distinctCells g.

(** What holds when the loops reach position [(i, j)]. *)
Let Inv (i j : nat) (h : list Cell) : Prop :=
  length h = length h0 /\ J h
  /\ (forall l c0, h0 !! l = Some c0 ->
        exists c, h !! l = Some c /\ (c = c0 \/ R c0 c))
  /\ (forall l c0 c, touched g i j l -> h0 !! l = Some c0 ->
        h !! l = Some c -> R c0 c)
  /\ (forall l, ~ touched g i j l -> h !! l = h0 !! l).

Lemma pass_step i j row l h :
  g !! i = Some row -> row !! j = Some l -> Inv i j h ->
  exists h', updateCell p dt g (map (fun r => r) g) i j h = Ok (tt, h')
             /\ Inv i (S j) h'.
Proof.
  intros Hi Hj (Hlen & HJ & Ha & Hb & Hc).
  assert (Hv' : valid h g) by (eapply valid_length; eauto).
  assert (Hl0 : (l < length h0)%nat) by by eapply valid_lookup.
  destruct (lookup_lt_is_Some_2 h0 l Hl0) as [c0 Hc0].
  destruct (Ha l c0 Hc0) as (c & Hcl & Hcase).
  assert (Href : refAt g i j = Some l) by by rewrite (refAt_lookup g i j row Hi).
  assert (Hcase' : c = c0 \/ (again /\ R c0 c)).
  { destruct Hcase as [->|HR]; [by left|].
    destruct Hagain as [Hag|Hd]; [by right|]. left.
    assert (Hnt : ~ touched g i j l).
    { intros (i' & j' & Hbef & Href').
      destruct (Hd _ _ _ _ _ Href Href') as [-> ->].
      destruct Hbef as [?|[_ ?]]; lia. }
    rewrite (Hc l Hnt), Hc0 in Hcl. congruence. }
  destruct (Hpass h i j l c0 c Href Hc0 Hcl Hlen HJ Hcase') as [HR' HJ'].
  eexists. split; [exact (updateCell_Ok p dt h g i j row l c Hv' Hi Hj Hcl)|].
  fold (passResult p dt g h l i j c).
  set (c' := passResult p dt g h l i j c) in *.
  split; [by rewrite length_insert|]. split; [exact HJ'|].
  split; [|split].
  - intros l1 c1 Hc1. destruct (decide (l1 = l)) as [->|Hne].
    + exists c'. split; [apply list_lookup_insert_eq; lia|].
      right. congruence.
    + rewrite list_lookup_insert_ne by done. by apply Ha.
  - intros l1 c1 c2 Ht Hc1 Hc2. destruct (decide (l1 = l)) as [->|Hne].
    + rewrite list_lookup_insert_eq in Hc2 by lia. congruence.
    + rewrite list_lookup_insert_ne in Hc2 by done.
      apply (Hb l1 c1 c2); [|done|done].
      destruct Ht as (i' & j' & Hbef & Href').
      exists i', j'. split; [|done].
      destruct Hbef as [?|[-> Hlt]]; [by left|].
      destruct (decide (j' = j)) as [->|?]; [congruence|].
      right. split; [done|lia].
  - intros l1 Hnt. assert (Hne : l1 <> l).
    { intros ->. apply Hnt. exists i, j. split; [|done]. right. split; [done|lia]. }
    rewrite list_lookup_insert_ne by done. apply Hc.
    intros (i' & j' & Hbef & Href'). apply Hnt. exists i', j'.
    split; [|done]. destruct Hbef as [?|[-> ?]]; [by left|right; split; [done|lia]].
Qed.

Lemma row_step i row h :
  g !! i = Some row -> Inv i 0 h ->
  exists h', forRange (length row)
               (fun j => updateCell p dt g (map (fun r => r) g) i j) h
             = Ok (tt, h')
             /\ Inv (S i) 0 h'.
Proof.
  intros Hi HI.
  destruct (forRange_ind (Inv i) (length row)
              (fun j => updateCell p dt g (map (fun r => r) g) i j) h)
    as (h' & Hrun & HI'); [|done|].
  - intros j h1 Hj HI1.
    destruct (lookup_lt_is_Some_2 row j Hj) as [l Hl].
    by eapply pass_step.
  - exists h'. split; [done|].
    destruct HI' as (Hlen & HJ & Ha & Hb & Hc).
    assert (Hiff : forall l, touched g (S i) 0 l <-> touched g i (length row) l).
    { intros l. split; intros (i' & j' & Hbef & Href); exists i', j';
        (split; [|done]).
      - destruct Hbef as [Hlt|[_ ?]]; [|lia].
        destruct (decide (i' = i)) as [->|?]; [|left; lia].
        right. split; [done|].
        rewrite (refAt_lookup g i j' row Hi) in Href.
        by eapply lookup_lt_Some.
      - destruct Hbef as [?|[-> _]]; left; lia. }
    split; [done|]. split; [done|]. split; [done|]. split.
    + intros l c0 c Ht. apply Hb. by apply Hiff.
    + intros l Hnt. apply Hc. intros Ht. apply Hnt. by apply Hiff.
Qed.

Lemma updater_processed :
  J h0 ->
  exists h',
    updateGrid_updater p dt g h0 = Ok (g, h')
    /\ length h' = length h0 /\ J h'
    /\ (forall i j l c0, refAt g i j = Some l -> h0 !! l = Some c0 ->
          exists c', h' !! l = Some c' /\ R c0 c')
    /\ (forall l, (forall i j, refAt g i j <> Some l) -> h' !! l = h0 !! l).
Proof.
  intros HJ0.
  assert (HI0 : Inv 0 0 h0).
  { split; [done|]. split; [done|]. split; [|split].
    - intros l c0 Hc0. exists c0. auto.
    - intros l c0 c (i' & j' & Hbef & _). destruct Hbef as [?|[_ ?]]; lia.
    - done. }
  destruct (forRange_ind (fun i => Inv i 0) (length g)
              (fun i => let* row := rowOf (map (fun r => r) g) i in
                        forRange (length row) (fun j =>
                          updateCell p dt g (map (fun r => r) g) i j)) h0)
    as (h' & Hrun & HI'); [|done|].
  - intros i h1 Hi HI1.
    destruct (lookup_lt_is_Some_2 g i Hi) as [row Hrow].
    assert (Hrow' : map (fun r : list nat => r) g !! i = Some row)
      by by rewrite list_lookup_fmap, Hrow.
    rewrite (bind_Ok _ _ _ _ _ (rowOf_Ok _ _ _ h1 Hrow')).
    by apply row_step.
  - destruct HI' as (Hlen & HJ & Ha & Hb & Hc).
    exists h'. split.
    { unfold updateGrid_updater. rewrite length_map.
      rewrite (bind_Ok _ _ _ _ _ Hrun). unfold ret. by rewrite map_id. }
    split; [done|]. split; [done|]. split.
    + intros i j l c0 Href Hc0.
      destruct (Ha l c0 Hc0) as (c & Hcl & _). exists c. split; [done|].
      apply (Hb l c0 c); [|done|done].
      exists i, j. split; [|done]. left.
      destruct (refAt_Some g i j l Href) as (row & Hrow & _).
      by eapply lookup_lt_Some.
    + intros l Hnone. apply Hc. intros (i' & j' & _ & Href).
      by apply (Hnone i' j').
Qed.
End Processed.

(** ** What a step computes *)

#[global] Instance clamp_proper : Proper (Qeq ==> Qeq) clamp.
Proof. intros x y Hxy. unfold clamp. by rewrite Hxy. Qed.

Lemma neighborRefs_refAt g i j n :
  n ∈ neighborRefs g i j -> exists i' j', refAt g i' j' = Some n.
Proof.
  unfold neighborRefs. intros Hn. apply filterBoolean_elem in Hn.
  rewrite !elem_of_cons in Hn.
  destruct Hn as [Hn|[Hn|[Hn|[Hn|Hn]]]].
  - destruct i as [|i']; [done|]. by exists i', j.
  - by exists (S i), j.
  - destruct j as [|j']; [done|]. by exists i, j'.
  - by exists i, (S j).
  - inversion Hn.
Qed.

(** Equal moistures exchange nothing. *)
Lemma diffusionOf_equal D (h : list Cell) self ns :
  (forall n, n ∈ ns -> moistureAt h n == moistureAt h self) ->
  diffusionOf D h self ns == 0.
Proof.
  unfold diffusionOf. intros Heq.
  assert (Hgen : forall acc, acc == 0 ->
            fold_left (fun acc n => acc + D * (moistureAt h n - moistureAt h self))
                      ns acc == 0).
  { induction ns as [|n ns IH]; intros acc Hacc; [done|].
    simpl. apply IH.
    - intros n' Hn'. apply Heq. by right.
    - rewrite Hacc, (Heq n) by by left. ring. }
  by apply Hgen.
Qed.

(** Without diffusion the neighbours do not count. *)
Lemma diffusionOf_no_diffusion D (h : list Cell) self ns :
  D == 0 -> diffusionOf D h self ns == 0.
Proof.
  unfold diffusionOf. intros HD.
  assert (Hgen : forall acc, acc == 0 ->
            fold_left (fun acc n => acc + D * (moistureAt h n - moistureAt h self))
                      ns acc == 0).
  { induction ns as [|n ns IH]; intros acc Hacc; [done|].
    simpl. apply IH. rewrite Hacc, HD. ring. }
  by apply Hgen.
Qed.

Lemma cellAt_refAt st row col :
  cellAt st row col
  = match refAt (grid st) row col with
    | Some l => heap st !! l
    | None => None
    end.
Proof. unfold cellAt, refAt. by destruct (grid st !! row). Qed.

(** A step, cell by cell: what [updater_processed] gives for the whole
    component state. *)
Lemma updateGrid_processed st (R : Cell -> Cell -> Prop)
    (J : list Cell -> Prop) (again : Prop) :
  valid (heap st) (grid st) ->
  (forall h i j l c0 c,
     refAt (grid st) i j = Some l -> heap st !! l = Some c0 ->
     h !! l = Some c -> length h = length (heap st) -> J h ->
     (c = c0 \/ (again /\ R c0 c)) ->
     R c0 (passResult (params st) (timeStepSize st) (grid st) h l i j c)
     /\ J (<[l := passResult (params st) (timeStepSize st) (grid st) h l i j c]> h)) ->
  again \/ distinctCells (grid st) ->
  J (heap st) ->
  exists st',
    updateGrid st = Ok st'
    /\ grid st' = grid st /\ J (heap st')
    /\ timeStep st' = (timeStep st + 1)%nat
    /\ forall row col cell, cellAt st row col = Some cell ->
         exists cell', cellAt st' row col = Some cell' /\ R cell cell'.
Proof.
  intros Hv Hpass Hagain HJ.
  destruct (updater_processed (params st) (timeStepSize st) (grid st) (heap st)
              R J again Hv Hpass Hagain HJ)
    as (h' & Hrun & Hlen & HJ' & Hcells & _).
  eexists. split.
  { unfold updateGrid, setGrid. rewrite Hrun. reflexivity. }
  split; [done|]. split; [done|]. split; [done|].
  intros row col cell Hcell. rewrite cellAt_refAt in Hcell.
  destruct (refAt (grid st) row col) as [l|] eqn:Href; [|done].
  destruct (Hcells row col l cell Href Hcell) as (c' & Hc' & HR).
  exists c'. split; [|done].
  rewrite cellAt_refAt. simpl. by rewrite Href.
Qed.

(** The tap decisions of a step on a grid of distinct cell objects. *)
Lemma updateGrid_taps (st : Sim) :
  valid (heap st) (grid st) -> distinctCells (grid st) ->
  exists st',
    updateGrid st = Ok st'
    /\ forall row col cell, cellAt st row col = Some cell ->
         exists cell',
           cellAt st' row col = Some cell'
           /\ overrideTap cell' = overrideTap cell
           /\ tapStatus cell'
              = (if overrideTap cell then tapStatus cell
                 else Qltb (moisture cell) (moistureThreshold (params st))).
Proof.
  intros Hv Hd.
  destruct (updateGrid_processed st
              (fun c0 c' => exists d, c' = updatedCell (params st) (timeStepSize st) d c0)
              (fun _ => True) False Hv)
    as (st' & Hup & _ & _ & _ & Hcells).
  - intros h i j l c0 c _ _ _ _ _ [->|[[] _]]. split; [|done].
    by eexists.
  - by right.
  - done.
  - exists st'. split; [done|].
    intros row col cell Hcell.
    destruct (Hcells _ _ _ Hcell) as (cell' & Hcell' & d & ->).
    exists (updatedCell (params st) (timeStepSize st) d cell).
    split; [done|].
    unfold updatedCell, fluxedCell.
    destruct (overrideTap cell) eqn:Ho; simpl.
    + destruct (tapStatus cell) eqn:Ht; simpl; rewrite ?Ho, ?Ht; done.
    + destruct (Qltb (moisture cell) (moistureThreshold (params st))) eqn:Hq;
        simpl; rewrite ?Ho; done.
Qed.

(** X2.  On a grid whose positions hold distinct cell objects, a step sets
    the tap of every cell that is not overridden from the moisture the
    cell had before the step (on exactly when that moisture is below the
    threshold) and keeps an overridden tap. *)
Theorem step_decides_taps (st : Sim) :
  valid (heap st) (grid st) -> distinctCells (grid st) ->
  exists st',
    updateGrid st = Ok st'
    /\ forall row col cell, cellAt st row col = Some cell ->
         exists cell',
           cellAt st' row col = Some cell'
           /\ overrideTap cell' = overrideTap cell
           /\ tapStatus cell'
              = (if overrideTap cell then tapStatus cell
                 else Qltb (moisture cell) (moistureThreshold (params st))).
Proof. apply updateGrid_taps. Qed.

(** X3.  With a diffusion coefficient of zero the cells of such a grid
    evolve independently, whatever their neighbours hold: from moistures
    in [0,1] the new moisture of a cell is the clamp of its old moisture
    plus irrigation when the tap is on, minus evapotranspiration when it
    is off. *)
Theorem step_without_diffusion (st : Sim) :
  valid (heap st) (grid st) -> distinctCells (grid st) -> gridInRange st ->
  diffusionCoefficient (params st) == 0 ->
  exists st',
    updateGrid st = Ok st'
    /\ forall row col cell, cellAt st row col = Some cell ->
         exists cell',
           cellAt st' row col = Some cell'
           /\ moisture cell'
              == clamp (if tapStatus cell'
                        then moisture cell
                             + irrigationRate (params st) * timeStepSize st
                        else moisture cell
                             - evapotranspirationRate (params st) * timeStepSize st).
Proof.
  intros Hv Hd _ HD.
  destruct (updateGrid_processed st
              (fun c0 c' =>
                 tapStatus c' = tapStatus (fluxedCell (params st) (timeStepSize st) c0)
                 /\ moisture c'
                    == clamp (moisture (fluxedCell (params st) (timeStepSize st) c0)))
              (fun _ => True) False Hv)
    as (st' & Hup & _ & _ & _ & Hcells).
  - intros h i j l c0 c _ _ _ _ _ [->|[[] _]]. split; [|done].
    unfold passResult, updatedCell. simpl. split; [done|].
    rewrite (diffusionOf_no_diffusion _ _ _ _ HD).
    apply clamp_proper. ring.
  - by right.
  - done.
  - exists st'. split; [done|].
    intros row col cell Hcell.
    destruct (Hcells _ _ _ Hcell) as (cell' & Hcell' & Ht & Hm).
    exists cell'. split; [done|]. rewrite Hm, Ht.
    unfold fluxedCell.
    destruct (tapStatus (if negb (overrideTap cell)
                         then set_tapStatus
                                (Qltb (moisture cell) (moistureThreshold (params st)))
                                cell
                         else cell)) eqn:Htap; simpl; rewrite ?Htap;
      destruct (negb (overrideTap cell)); simpl; reflexivity.
Qed.

(** X4.  A grid at a uniform moisture [m] in [0,1] is a fixed point of
    the step when nothing is irrigated or evaporated, whatever the
    diffusion coefficient and the time step are. *)
Theorem step_keeps_uniform_grid (st : Sim) (m : Q) :
  valid (heap st) (grid st) -> 0 <= m <= 1 ->
  irrigationRate (params st) == 0 ->
  evapotranspirationRate (params st) == 0 ->
  (forall row col cell, cellAt st row col = Some cell -> moisture cell == m) ->
  exists st',
    updateGrid st = Ok st'
    /\ forall row col cell', cellAt st' row col = Some cell' ->
         moisture cell' == m.
Proof.
  intros Hv Hm Hirr Hevap Hall.
  set (J := fun h : list Cell =>
              forall i j l, refAt (grid st) i j = Some l -> moistureAt h l == m).
  destruct (updateGrid_processed st (fun _ c' => moisture c' == m) J True Hv)
    as (st' & Hup & Hg & HJ' & _ & _).
  - intros h i j l c0 c Href Hc0 Hc Hlen HJ _.
    assert (Hl : (l < length h)%nat) by by eapply lookup_lt_Some.
    assert (Hcm : moisture c == m).
    { specialize (HJ i j l Href). unfold moistureAt in HJ. by rewrite Hc in HJ. }
    assert (Hfm : moisture (fluxedCell (params st) (timeStepSize st) c) == m).
    { unfold fluxedCell.
      destruct (tapStatus _); simpl;
        destruct (negb (overrideTap c)); simpl; rewrite ?Hirr, ?Hevap, Hcm; ring. }
    assert (Hat : forall n, (exists i' j', refAt (grid st) i' j' = Some n) ->
              moistureAt (<[l := fluxedCell (params st) (timeStepSize st) c]> h) n == m).
    { intros n (i' & j' & Hn). unfold moistureAt.
      destruct (decide (n = l)) as [->|Hne].
      - by rewrite list_lookup_insert_eq.
      - rewrite list_lookup_insert_ne by done. exact (HJ i' j' n Hn). }
    assert (Hres : moisture (passResult (params st) (timeStepSize st) (grid st) h l i j c) == m).
    { unfold passResult, updatedCell. simpl.
      rewrite diffusionOf_equal.
      - rewrite Hfm. rewrite <- (clamp_id m Hm) at 2. apply clamp_proper. ring.
      - intros n Hn. rewrite (Hat n (neighborRefs_refAt _ _ _ _ Hn)).
        symmetry. apply Hat. by exists i, j. }
    split; [exact Hres|].
    intros i' j' n Hn. unfold moistureAt.
    destruct (decide (n = l)) as [->|Hne].
    + by rewrite list_lookup_insert_eq.
    + rewrite list_lookup_insert_ne by done. exact (HJ i' j' n Hn).
  - by left.
  - intros i j l Href.
    assert (Hl : (l < length (heap st))%nat) by by eapply refAt_valid.
    destruct (lookup_lt_is_Some_2 _ _ Hl) as [c Hc].
    unfold moistureAt. rewrite Hc. apply (Hall i j).
    rewrite cellAt_refAt, Href. done.
  - exists st'. split; [done|].
    intros row col cell' Hcell'. rewrite cellAt_refAt, Hg in Hcell'.
    destruct (refAt (grid st) row col) as [l|] eqn:Href; [|done].
    specialize (HJ' row col l Href). unfold moistureAt in HJ'.
    by rewrite Hcell' in HJ'.
Qed.

(** ** The cell dialog *)

Lemma dialogCell_of_wf st row col :
  wf st -> selectedCell st = Some (row, col) -> dialogCell st = Some (row, col).
Proof.
  intros [_ Hsel] Hs. rewrite Hs in Hsel. destruct Hsel as [cell Hcell].
  destruct (cellAt_Some _ _ _ _ Hcell) as (rw & l & Hr & Hc & _).
  unfold dialogCell. by rewrite Hs, Hr, Hc.
Qed.

Lemma refAt_replace (g : list (list nat)) row col rw x i j :
  g !! row = Some rw -> (col < length rw)%nat ->
  refAt (<[row := <[col := x]> rw]> g) i j
  = if decide ((i, j) = (row, col)) then Some x else refAt g i j.
Proof.
  intros Hr Hc. unfold refAt.
  assert (Hrow : (row < length g)%nat) by by eapply lookup_lt_Some.
  destruct (decide (i = row)) as [->|Hi].
  - rewrite list_lookup_insert_eq by done. rewrite Hr.
    destruct (decide (j = col)) as [->|Hj].
    + rewrite list_lookup_insert_eq by done. by rewrite decide_True.
    + rewrite list_lookup_insert_ne by done. rewrite decide_False; [done|congruence].
  - rewrite list_lookup_insert_ne by done. rewrite decide_False; [done|congruence].
Qed.

Lemma replace_distinct (h : list Cell) (g : list (list nat)) row col rw :
  valid h g -> g !! row = Some rw -> (col < length rw)%nat ->
  distinctCells g ->
  distinctCells (<[row := <[col := length h]> rw]> g).
Proof.
  intros Hv Hr Hc Hd i j i' j' l.
  rewrite !(refAt_replace g row col rw _ _ _ Hr Hc).
  destruct (decide ((i, j) = (row, col))) as [[= -> ->]|Hne];
    destruct (decide ((i', j') = (row, col))) as [[= -> ->]|Hne']; try done.
  - intros [= <-] Hl. apply (refAt_valid h) in Hl; [lia|done].
  - intros Hl [= <-]. apply (refAt_valid h) in Hl; [lia|done].
  - apply Hd.
Qed.

(** A dialog event on the selected cell, in full. *)
Lemma dialog_event e f st row col cell :
  wf st -> dialogCell st = Some (row, col) ->
  dialogUpdate e (moistureUnit st) = Some f ->
  cellAt st row col = Some cell ->
  exists st',
    dispatch e st = Ok st'
    /\ wf st'
    /\ cellAt st' row col = Some (f cell)
    /\ (forall r c, (r, c) <> (row, col) -> cellAt st' r c = cellAt st r c)
    /\ (forall l c, heap st !! l = Some c -> heap st' !! l = Some c)
    /\ selectedCell st' = selectedCell st
    /\ timeStep st' = timeStep st
    /\ params st' = params st
    /\ timeStepSize st' = timeStepSize st
    /\ moistureUnit st' = moistureUnit st
    /\ (distinctCells (grid st) -> distinctCells (grid st')).
Proof.
  intros [Hv Hsel] Hd Hf Hcell.
  destruct (dialogCell_Some _ _ _ Hd) as (Hs & rw & l & Hr & Hc).
  assert (Hl : heap st !! l = Some cell)
    by by rewrite <- (cellAt_intro st row col rw l Hr Hc).
  set (st1 := with_grid (heap st ++ [f cell])
                (<[row := <[col := length (heap st)]> rw]> (grid st)) st).
  pose proof (replace_valid st f row col rw cell Hv Hr) as Hv1.
  pose proof (replace_cellAt_eq st f row col rw l cell Hr Hc) as Heq.
  pose proof (replace_cellAt_ne st f row col rw cell Hv Hr) as Hne.
  fold st1 in Hv1, Heq, Hne.
  assert (Hwf1 : wf st1).
  { split; [exact Hv1|]. simpl. rewrite Hs. by rewrite Heq. }
  assert (Hdisp : dispatch e st
                  = Ok (with_moistureHistory
                          (sampledFrom (moistureHistory st1) st1) st1)).
  { rewrite <- (historyEffect_Ok st1 Hwf1).
    destruct e as [| |[v|]| | | | |]; try done; simpl in Hf |- *;
      injection Hf as <-; rewrite Hd;
      unfold manualMoistureChange, toggleTap, resetTapControl;
      by rewrite (replace_setGrid st _ row col rw l cell Hr Hc Hl). }
  eexists. split; [exact Hdisp|].
  split.
  { split; [exact Hv1|]. simpl. rewrite Hs.
    rewrite (cellAt_ext _ st1) by done. by rewrite Heq. }
  split; [by rewrite (cellAt_ext _ st1)|].
  split; [intros r c Hrc; rewrite (cellAt_ext _ st1) by done; by apply Hne|].
  split; [intros l0 c0 Hl0; simpl; by apply lookup_app_l_Some|].
  repeat (split; [done|]).
  simpl. apply (replace_distinct _ _ _ _ _ Hv Hr). by eapply lookup_lt_Some.
Qed.

(** X5.  Typing a moisture for the selected cell clamps the converted
    value into [0,1], claims the override and keeps the tap; no other
    cell, no parameter and no existing cell object changes. *)
Theorem manual_moisture_sets_cell (st : Sim) (v : Q) (row col : nat)
    (cell : Cell) :
  wf st -> selectedCell st = Some (row, col) ->
  cellAt st row col = Some cell ->
  exists st' cell',
    dispatch (ManualMoisture (Some v)) st = Ok st'
    /\ cellAt st' row col = Some cell'
    /\ overrideTap cell' = true /\ tapStatus cell' = tapStatus cell
    /\ (newMoisture (moistureUnit st) v <= 0 -> moisture cell' == 0)
    /\ (0 <= newMoisture (moistureUnit st) v <= 1 ->
        moisture cell' == newMoisture (moistureUnit st) v)
    /\ (1 <= newMoisture (moistureUnit st) v -> moisture cell' == 1)
    /\ (forall r c, (r, c) <> (row, col) -> cellAt st' r c = cellAt st r c)
    /\ (forall l c, heap st !! l = Some c -> heap st' !! l = Some c)
    /\ params st' = params st /\ timeStep st' = timeStep st.
Proof.
  intros Hwf Hs Hcell.
  destruct (dialog_event (ManualMoisture (Some v)) _ st row col cell Hwf
              (dialogCell_of_wf _ _ _ Hwf Hs) eq_refl Hcell)
    as (st' & Hd & _ & Hc' & Hothers & Hheap & _ & Ht & Hp & _).
  eexists st', _. split; [exact Hd|]. split; [exact Hc'|]. simpl.
  split; [done|]. split; [done|].
  split; [|split; [|split]].
  - intros Hle. rewrite (Q.max_l 0 _ Hle). apply Q.min_r. discriminate.
  - intros [H0 H1]. rewrite (Q.max_r 0 _ H0). by apply Q.min_r.
  - intros H1. rewrite Q.max_r by (eapply Qle_trans; [|exact H1]; discriminate).
    by apply Q.min_l.
  - done.
Qed.

(** X6.  Toggling the selected cell's tap twice restores its tap state and
    its moisture but leaves the cell overridden. *)
Theorem toggle_tap_twice (st : Sim) (row col : nat) (cell : Cell) :
  wf st -> selectedCell st = Some (row, col) ->
  cellAt st row col = Some cell ->
  exists st1 st2,
    dispatch ToggleTap st = Ok st1
    /\ cellAt st1 row col
       = Some (mkCell (moisture cell) (negb (tapStatus cell)) true)
    /\ dispatch ToggleTap st1 = Ok st2
    /\ cellAt st2 row col = Some (mkCell (moisture cell) (tapStatus cell) true)
    /\ forall r c, (r, c) <> (row, col) -> cellAt st2 r c = cellAt st r c.
Proof.
  intros Hwf Hs Hcell.
  destruct (dialog_event ToggleTap _ st row col cell Hwf
              (dialogCell_of_wf _ _ _ Hwf Hs) eq_refl Hcell)
    as (st1 & Hd1 & Hwf1 & Hc1 & Ho1 & _ & Hs1 & _).
  rewrite Hs in Hs1.
  destruct (dialog_event ToggleTap _ st1 row col _ Hwf1
              (dialogCell_of_wf _ _ _ Hwf1 Hs1) eq_refl Hc1)
    as (st2 & Hd2 & _ & Hc2 & Ho2 & _).
  exists st1, st2. split; [done|]. split; [exact Hc1|]. split; [done|].
  split.
  - rewrite Hc2. simpl. by rewrite negb_involutive.
  - intros r c Hrc. by rewrite Ho2, Ho1.
Qed.

(** X7.  After Reset Tap Control on the selected cell the cell keeps its
    tap and its moisture until the next step, and that step decides the
    tap from the threshold again: on exactly when the moisture is below
    it. *)
Theorem reset_then_step_recomputes_tap (st : Sim) (row col : nat)
    (cell : Cell) :
  wf st -> distinctCells (grid st) ->
  selectedCell st = Some (row, col) -> cellAt st row col = Some cell ->
  exists st1 st2 cell2,
    dispatch ResetTapControl st = Ok st1
    /\ cellAt st1 row col
       = Some (mkCell (moisture cell) (tapStatus cell) false)
    /\ updateGrid st1 = Ok st2
    /\ cellAt st2 row col = Some cell2
    /\ overrideTap cell2 = false
    /\ tapStatus cell2
       = Qltb (moisture cell) (moistureThreshold (params st)).
Proof.
  intros Hwf Hdist Hs Hcell.
  destruct (dialog_event ResetTapControl _ st row col cell Hwf
              (dialogCell_of_wf _ _ _ Hwf Hs) eq_refl Hcell)
    as (st1 & Hd1 & [Hv1 _] & Hc1 & _ & _ & _ & _ & Hp & _ & _ & Hdist1).
  destruct (updateGrid_taps st1 Hv1 (Hdist1 Hdist)) as (st2 & Hup & Hcells).
  destruct (Hcells _ _ _ Hc1) as (cell2 & Hc2 & Ho2 & Ht2).
  exists st1, st2, cell2. split; [done|]. split; [exact Hc1|].
  split; [done|]. split; [done|]. split; [exact Ho2|].
  rewrite Ht2, Hp. reflexivity.
Qed.

(** ** Invariants of event sequences *)

Lemma historyEffect_frame st st' :
  historyEffect st = Ok st' ->
  heap st' = heap st /\ grid st' = grid st /\ params st' = params st
  /\ timeStepSize st' = timeStepSize st /\ moistureUnit st' = moistureUnit st.
Proof.
  unfold historyEffect. destruct (selectedCell st) as [[r c]|].
  - destruct (0 <? length (grid st))%nat.
    + destruct (bind _ _ _) as [[c0 h]|]; [|done]. by intros [= <-].
    + by intros [= <-].
  - by intros [= <-].
Qed.

Lemma rbind_Ok {A B} (r : Result A) (k : A -> Result B) b :
  rbind r k = Ok b -> exists a, r = Ok a /\ k a = Ok b.
Proof. destruct r as [a|]; [|done]. intros H. by exists a. Qed.

Lemma updateGrid_frame st st' :
  valid (heap st) (grid st) -> updateGrid st = Ok st' ->
  grid st' = grid st /\ params st' = params st
  /\ timeStepSize st' = timeStepSize st /\ moistureUnit st' = moistureUnit st.
Proof.
  intros Hv Hup. destruct (updateGrid_Ok st Hv) as (h' & Hup' & _).
  rewrite Hup' in Hup. by injection Hup as <-.
Qed.

(** Events other than dialog events on a shown dialog keep the grid. *)
Lemma dispatch_distinct e st st' :
  wf st -> dispatch e st = Ok st' ->
  distinctCells (grid st) -> distinctCells (grid st').
Proof.
  intros Hwf Hd Hdist.
  assert (Hdialog : forall f, dialogUpdate e (moistureUnit st) = Some f ->
            forall row col, dialogCell st = Some (row, col) ->
            distinctCells (grid st')).
  { intros f Hf row col Hdc.
    destruct (dialogCell_Some _ _ _ Hdc) as (Hs & rw & l & Hr & Hc).
    destruct (cellAt_valid st row col rw l (proj1 Hwf) Hr Hc) as [cell Hcell].
    destruct (dialog_event e f st row col cell Hwf Hdc Hf Hcell)
      as (st2 & Hd2 & _ & _ & _ & _ & _ & _ & _ & _ & _ & Hkeep).
    rewrite Hd in Hd2. injection Hd2 as ->. by apply Hkeep. }
  destruct e as [row col| |[v|]| | |k v|v|u]; simpl in Hd.
  - destruct (cellAt st row col); [|by injection Hd as <-].
    apply historyEffect_frame in Hd as (_ & -> & _). done.
  - apply rbind_Ok in Hd as (st1 & Hup & Hh).
    apply historyEffect_frame in Hh as (_ & -> & _).
    by rewrite (proj1 (updateGrid_frame st st1 (proj1 Hwf) Hup)).
  - destruct (dialogCell st) as [[row col]|] eqn:Hdc; [|by injection Hd as <-].
    by eapply Hdialog.
  - destruct (dialogCell st) as [[row col]|] eqn:Hdc; by injection Hd as <-.
  - destruct (dialogCell st) as [[row col]|] eqn:Hdc; [|by injection Hd as <-].
    by eapply Hdialog.
  - destruct (dialogCell st) as [[row col]|] eqn:Hdc; [|by injection Hd as <-].
    by eapply Hdialog.
  - destruct (_ && _); by injection Hd as <-.
  - destruct (_ && _); by injection Hd as <-.
  - by injection Hd as <-.
Qed.

Lemma dispatch_paramsInRange e st st' :
  wf st -> dispatch e st = Ok st' -> paramsInRange st -> paramsInRange st'.
Proof.
  intros Hwf Hd HP.
  assert (Hsame : params st' = params st -> timeStepSize st' = timeStepSize st ->
                  paramsInRange st').
  { unfold paramsInRange. by intros -> ->. }
  assert (Hdialog : forall f, dialogUpdate e (moistureUnit st) = Some f ->
            forall row col, dialogCell st = Some (row, col) -> paramsInRange st').
  { intros f Hf row col Hdc.
    destruct (dialogCell_Some _ _ _ Hdc) as (Hs & rw & l & Hr & Hc).
    destruct (cellAt_valid st row col rw l (proj1 Hwf) Hr Hc) as [cell Hcell].
    destruct (dialog_event e f st row col cell Hwf Hdc Hf Hcell)
      as (st2 & Hd2 & _ & _ & _ & _ & _ & _ & Hp & Ht & _).
    rewrite Hd in Hd2. injection Hd2 as ->. by apply Hsame. }
  destruct e as [row col| |[v|]| | |k v|v|u]; simpl in Hd.
  - destruct (cellAt st row col); [|by injection Hd as <-].
    apply historyEffect_frame in Hd as (_ & _ & Hp & Ht & _). by apply Hsame.
  - apply rbind_Ok in Hd as (st1 & Hup & Hh).
    apply historyEffect_frame in Hh as (_ & _ & Hp & Ht & _).
    destruct (updateGrid_frame st st1 (proj1 Hwf) Hup) as (_ & Hp1 & Ht1 & _).
    apply Hsame; congruence.
  - destruct (dialogCell st) as [[row col]|] eqn:Hdc; [|by injection Hd as <-].
    by eapply Hdialog.
  - destruct (dialogCell st) as [[row col]|] eqn:Hdc; by injection Hd as <-.
  - destruct (dialogCell st) as [[row col]|] eqn:Hdc; [|by injection Hd as <-].
    by eapply Hdialog.
  - destruct (dialogCell st) as [[row col]|] eqn:Hdc; [|by injection Hd as <-].
    by eapply Hdialog.
  - destruct (Qle_bool 0 v && Qle_bool v (paramMax k)) eqn:Hg;
      [|by injection Hd as <-].
    injection Hd as <-. apply andb_prop in Hg as [H0 H1].
    apply Qle_bool_iff in H0, H1.
    destruct HP as (HD & HE & HI & HT & Hdt).
    unfold paramsInRange. destruct k; simpl in *; tauto.
  - destruct (Qle_bool (1 # 10) v && Qle_bool v 24) eqn:Hg;
      [|by injection Hd as <-].
    injection Hd as <-. apply andb_prop in Hg as [H0 H1].
    apply Qle_bool_iff in H0, H1.
    destruct HP as (HD & HE & HI & HT & Hdt).
    unfold paramsInRange. simpl. tauto.
  - by injection Hd as <-.
Qed.

(** Invariants stated on [dispatch] carry over any sequence of events. *)
Lemma run_inv_dispatch (P : Sim -> Prop) :
  (forall e st st', wf st -> dispatch e st = Ok st' -> P st -> P st') ->
  forall tr st, wf st -> P st ->
    exists st', run tr st = Ok st' /\ wf st' /\ P st'.
Proof.
  intros HP tr. induction tr as [|e tr IH]; intros st Hwf HPst.
  - by exists st.
  - destruct (dispatch_Ok e st Hwf) as (st1 & Hd & Ht).
    destruct (IH st1 (trans_wf _ _ _ Ht) (HP _ _ _ Hwf Hd HPst))
      as (st' & Hrun & Hwf' & HP').
    exists st'. split; [|done]. simpl. by rewrite Hd.
Qed.

(** X8.  No sequence of events makes two grid positions share a cell
    object: the manual updates put fresh objects into the grid and a step
    keeps the objects where they are. *)
Theorem cells_stay_distinct (st : Sim) (tr : list Event) :
  wf st -> distinctCells (grid st) ->
  exists st', run tr st = Ok st' /\ distinctCells (grid st').
Proof.
  intros Hwf Hd.
  destruct (run_inv_dispatch (fun s => distinctCells (grid s)) dispatch_distinct
              tr st Hwf Hd) as (st' & Hrun & _ & Hd').
  by exists st'.
Qed.

(** X9.  The parameter inputs reject values outside their ranges: from
    parameters in range, every sequence of events leaves the diffusion
    coefficient and the threshold in [0,1], the two rates in [0,0.5] and
    the time step in [0.1,24]. *)
Theorem params_stay_in_range (st : Sim) (tr : list Event) :
  wf st -> paramsInRange st ->
  exists st', run tr st = Ok st' /\ paramsInRange st'.
Proof.
  intros Hwf HP.
  destruct (run_inv_dispatch paramsInRange dispatch_paramsInRange tr st Hwf HP)
    as (st' & Hrun & _ & HP').
  by exists st'.
Qed.

Lemma lookup_slice_last {A} n (xs : list A) i :
  slice_last n xs !! i = xs !! (length xs - n + i)%nat.
Proof. unfold slice_last. apply lookup_drop. Qed.

Lemma trans_historyOrdered e st st' :
  wf st -> historyOrdered st -> trans e st st' -> historyOrdered st'.
Proof.
  intros _ [Hord Hbound] Ht.
  assert (Htime : (timeStep st <= timeStep st')%nat).
  { rewrite (trans_time _ _ _ Ht). destruct e; lia. }
  assert (Hkeep : moistureHistory st' = moistureHistory st -> historyOrdered st').
  { intros Heq. split; [by rewrite Heq|rewrite Heq].
    intros s Hs. specialize (Hbound s Hs). lia. }
  pose proof (trans_history _ _ _ Ht) as Hh.
  destruct (runs_effect e st); [|by apply Hkeep].
  unfold sampledFrom in Hh.
  destruct (selectedCell st') as [[r c]|]; [|by apply Hkeep].
  destruct (cellAt st' r c) as [cell|]; [|by apply Hkeep].
  set (new := mkSample (timeStep st') (moisture cell)) in Hh.
  assert (Hall : forall s, s ∈ moistureHistory st ++ [new] ->
            (time s <= timeStep st')%nat).
  { intros s Hs. apply elem_of_app in Hs as [Hs|Hs].
    - specialize (Hbound s Hs). lia.
    - apply list_elem_of_singleton in Hs as ->. done. }
  assert (Hord' : forall i j s1 s2, (i <= j)%nat ->
            (moistureHistory st ++ [new]) !! i = Some s1 ->
            (moistureHistory st ++ [new]) !! j = Some s2 ->
            (time s1 <= time s2)%nat).
  { intros i j s1 s2 Hij H1 H2.
    destruct (decide (j < length (moistureHistory st))%nat) as [Hj|Hj].
    - rewrite lookup_app_l in H1, H2 by lia. exact (Hord i j s1 s2 Hij H1 H2).
    - rewrite lookup_app_r in H2 by lia.
      apply list_lookup_singleton_Some in H2 as [_ <-].
      apply Hall. by eapply list_elem_of_lookup_2. }
  unfold historyOrdered. rewrite Hh. split.
  - intros i j s1 s2 Hij H1 H2. rewrite lookup_slice_last in H1, H2.
    eapply Hord'; [|exact H1|exact H2]. lia.
  - intros s Hs. apply Hall.
    apply list_elem_of_lookup_1 in Hs as [i Hi].
    rewrite lookup_slice_last in Hi. by eapply list_elem_of_lookup_2.
Qed.

(** X10.  The history stays in tick order: after any sequence of events
    its ticks never decrease from one entry to the next and none exceeds
    the current tick counter. *)
Theorem history_stays_ordered (st : Sim) (tr : list Event) :
  wf st -> historyOrdered st ->
  exists st', run tr st = Ok st' /\ historyOrdered st'.
Proof.
  intros Hwf Ho.
  destruct (run_inv historyOrdered trans_historyOrdered tr st Hwf Ho)
    as (st' & Hrun & _ & Ho').
  by exists st'.
Qed.

Lemma historyEffect_timeStep st st' :
  historyEffect st = Ok st' -> timeStep st' = timeStep st.
Proof.
  unfold historyEffect. destruct (selectedCell st) as [[r c]|].
  - destruct (0 <? length (grid st))%nat.
    + destruct (bind _ _ _) as [[c0 h]|]; [|done]. by intros [= <-].
    + by intros [= <-].
  - by intros [= <-].
Qed.

Lemma setGrid_timeStep updater st st' :
  setGrid updater st = Ok st' -> timeStep st' = timeStep st.
Proof.
  unfold setGrid. destruct (updater _ _) as [[g h]|]; [|done]. by intros [= <-].
Qed.

(** Only [updateGrid] moves the tick counter among the events of the
    engine, whatever the state is. *)
Lemma dispatch_timeStep e st st' :
  dispatch e st = Ok st' ->
  timeStep st' = match e with
                 | StepForward => (timeStep st + 1)%nat
                 | _ => timeStep st
                 end.
Proof.
  assert (Hset : forall updater st1,
            rbind (setGrid updater st) historyEffect = Ok st1 ->
            timeStep st1 = timeStep st).
  { intros updater st1 H. apply rbind_Ok in H as (st0 & Hs & Hh).
    rewrite (historyEffect_timeStep _ _ Hh). by eapply setGrid_timeStep. }
  destruct e as [row col| |[v|]| | |k v|v|u]; simpl; intros Hd.
  - destruct (cellAt st row col); [|by injection Hd as <-].
    by rewrite (historyEffect_timeStep _ _ Hd).
  - apply rbind_Ok in Hd as (st1 & Hup & Hh).
    rewrite (historyEffect_timeStep _ _ Hh).
    unfold updateGrid in Hup. apply rbind_Ok in Hup as (st0 & Hs & [= <-]).
    simpl. by rewrite (setGrid_timeStep _ _ _ Hs).
  - destruct (dialogCell st) as [[row col]|]; [|by injection Hd as <-].
    by eapply Hset.
  - destruct (dialogCell st) as [[row col]|]; by injection Hd as <-.
  - destruct (dialogCell st) as [[row col]|]; [|by injection Hd as <-].
    by eapply Hset.
  - destruct (dialogCell st) as [[row col]|]; [|by injection Hd as <-].
    by eapply Hset.
  - destruct (_ && _); by injection Hd as <-.
  - destruct (_ && _); by injection Hd as <-.
  - by injection Hd as <-.
Qed.

Lemma resetSimulation_timeStep sp random pg pg' :
  resetSimulation sp random pg = Ok pg' -> timeStep (sim pg') = 0%nat.
Proof.
  unfold resetSimulation. destruct (initializeGrid _ _ _ _ _ _) as [[g h]|]; [|done].
  intros H. apply rbind_Ok in H as (s & Hh & [= <-]).
  simpl. by rewrite (historyEffect_timeStep _ _ Hh).
Qed.

Lemma runPage_app sp tr1 tr2 pg :
  runPage sp (tr1 ++ tr2) pg = rbind (runPage sp tr1 pg) (runPage sp tr2).
Proof.
  revert pg. induction tr1 as [|e tr1 IH]; intros pg; [done|].
  simpl. destruct (pageDispatch sp e pg) as [pg1|]; [|done]. apply IH.
Qed.

(** Between two presses of Reset the tick counter counts the steps. *)
Lemma runPage_steps sp tr :
  forallb (fun e => negb (isReset e)) tr = true ->
  forall pg pg', runPage sp tr pg = Ok pg' ->
    timeStep (sim pg') = (timeStep (sim pg) + pageSteps tr)%nat.
Proof.
  induction tr as [|e tr IH]; intros Hno pg pg' Hrun.
  - injection Hrun as <-. simpl. lia.
  - simpl in Hno. apply andb_prop in Hno as [He Hno].
    simpl in Hrun. apply rbind_Ok in Hrun as (pg1 & Hd & Hrun).
    rewrite (IH Hno pg1 pg' Hrun).
    destruct e as [|random|e]; [| |]; simpl in Hd.
    + injection Hd as <-. simpl. lia.
    + discriminate.
    + apply rbind_Ok in Hd as (s & Hd & [= <-]).
      simpl. rewrite (dispatch_timeStep _ _ _ Hd). destruct e; simpl; lia.
Qed.

(** X11.  The tick counter counts the calls of [updateGrid] since the last
    press of Reset: in every run of page events that raises no exception,
    the counter has advanced by the number of steps when Reset was not
    pressed, and otherwise equals the number of steps after the last
    press of Reset.  No other event moves it. *)
Theorem tick_counts_steps (sp : SearchParams) (tr : list PageEvent)
    (pg pg' : Page) :
  runPage sp tr pg = Ok pg' ->
  (forallb (fun e => negb (isReset e)) tr = true ->
     timeStep (sim pg') = (timeStep (sim pg) + pageSteps tr)%nat)
  /\ (forall tr1 random tr2,
        tr = tr1 ++ Reset random :: tr2 ->
        forallb (fun e => negb (isReset e)) tr2 = true ->
        timeStep (sim pg') = pageSteps tr2).
Proof.
  intros Hrun. split.
  - intros Hno. by apply (runPage_steps sp tr Hno).
  - intros tr1 random tr2 -> Hno.
    rewrite runPage_app in Hrun. apply rbind_Ok in Hrun as (pg1 & _ & Hrun).
    simpl in Hrun. apply rbind_Ok in Hrun as (pg2 & Hreset & Hrun).
    rewrite (runPage_steps sp tr2 Hno pg2 pg' Hrun).
    by rewrite (resetSimulation_timeStep _ _ _ _ Hreset).
Qed.

(** X12.  Samples are taken for a selected cell only: while no cell is
    selected, no sequence of steps, dialog events and parameter inputs
    adds a sample or selects a cell. *)
Theorem no_selection_no_samples (tr : list Event) :
  forall st, wf st -> selectedCell st = None ->
  forallb (fun e => negb (isClick e)) tr = true ->
  exists st', run tr st = Ok st'
              /\ selectedCell st' = None
              /\ moistureHistory st' = moistureHistory st.
Proof.
  induction tr as [|e tr IH]; intros st Hwf Hs Hno.
  - by exists st.
  - simpl in Hno. apply andb_prop in Hno as [He Hno].
    destruct (dispatch_Ok e st Hwf) as (st1 & Hd & Ht).
    assert (Hs1 : selectedCell st1 = None).
    { rewrite (trans_selected _ _ _ Ht). by destruct e. }
    assert (Hh1 : moistureHistory st1 = moistureHistory st).
    { rewrite (trans_history _ _ _ Ht). unfold sampledFrom. rewrite Hs1.
      by destruct (runs_effect e st). }
    destruct (IH st1 (trans_wf _ _ _ Ht) Hs1 Hno) as (st' & Hrun & Hs' & Hh').
    exists st'. split; [simpl; by rewrite Hd|]. split; [done|]. congruence.
Qed.

(** ** Created grids and rendered cells *)

Lemma initRows_full (mk : nat -> Cell) (cols : Z) (n : nat) :
  (0 <= cols < 2 ^ 32)%Z -> n = Z.to_nat cols ->
  forall m s (h : list Cell),
  exists h',
    mapM (fun r => let* ncols := Array_ (Some cols) in
                   mapM (fun c => alloc (mk (r * ncols + c)%nat)) (seq 0 ncols))
         (seq s m) h
    = Ok (map (fun i => seq (length h + i * n) n) (seq 0 m), h')
    /\ length h' = (length h + m * n)%nat
    /\ (forall l, (l < length h)%nat -> h' !! l = h !! l)
    /\ forall i j, (i < m)%nat -> (j < n)%nat ->
         h' !! (length h + i * n + j)%nat = Some (mk ((s + i) * n + j)%nat).
Proof.
  intros Hcols ->. induction m as [|m IH]; intros s h.
  - exists h. split; [done|]. split; [simpl; lia|]. split; [done|].
    intros i j Hi. lia.
  - set (n := Z.to_nat cols).
    set (h1 := h ++ map (fun c => mk (s * n + c)%nat) (seq 0 n)).
    assert (Hlen1 : length h1 = (length h + n)%nat).
    { subst h1. by rewrite length_app, length_map, length_seq. }
    destruct (IH (S s) h1) as (h' & Hrun & Hh' & Hkeep & Hcells).
    exists h'. split.
    { cbn [seq mapM].
      erewrite bind_Ok; cycle 1.
      { erewrite bind_Ok by by apply Array_Ok.
        fold n. rewrite (mapM_alloc (fun c => mk (s * n + c)%nat)).
        rewrite length_seq. reflexivity. }
      fold h1. erewrite bind_Ok by exact Hrun.
      unfold ret. do 2 f_equal. cbn [map]. f_equal.
      - f_equal. lia.
      - rewrite <- seq_shift, map_map. apply map_ext. intros i.
        f_equal. lia. }
    split; [lia|]. split.
    { intros l Hl. rewrite Hkeep by lia. subst h1. by apply lookup_app_l. }
    intros [|i] j Hi Hj.
    + rewrite Hkeep by lia. subst h1.
      rewrite lookup_app_r by lia.
      replace (length h + 0 * n + j - length h)%nat with j by lia.
      rewrite list_lookup_fmap, lookup_seq_lt by done.
      simpl. do 3 f_equal. lia.
    + replace (length h + S i * n + j)%nat with (length h1 + i * n + j)%nat by lia.
      rewrite Hcells by lia. do 3 f_equal. lia.
Qed.

(** [initializeGrid] in full: the references it hands out and the cells
    behind them. *)
Lemma initializeGrid_full (rows cols : Z) mode pct random (h : list Cell) :
  (0 <= rows < 2 ^ 32)%Z -> (0 <= cols < 2 ^ 32)%Z ->
  let m := Z.to_nat rows in
  let n := Z.to_nat cols in
  exists h',
    initializeGrid (Some rows) (Some cols) mode pct random h
    = Ok (map (fun i => seq (length h + i * n) n) (seq 0 m), h')
    /\ length h' = (length h + m * n)%nat
    /\ (forall l, (l < length h)%nat -> h' !! l = h !! l)
    /\ forall i j, (i < m)%nat -> (j < n)%nat ->
         h' !! (length h + i * n + j)%nat
         = Some (newCell mode (pct / 100) random (i * n + j)%nat).
Proof.
  intros Hr Hc m n. unfold initializeGrid.
  erewrite bind_Ok by (apply Array_Ok; lia).
  destruct (initRows_full (newCell mode (pct / 100) random) cols n Hc eq_refl m 0%nat h)
    as (h' & Hrun & Hlen & Hkeep & Hcells).
  exists h'. split; [exact Hrun|]. split; [done|]. split; [done|].
  intros i j Hi Hj. by rewrite Hcells.
Qed.

Lemma refAt_rows (base n m i j : nat) :
  refAt (map (fun i => seq (base + i * n) n) (seq 0 m)) i j
  = if decide (i < m /\ j < n)%nat then Some (base + i * n + j)%nat else None.
Proof.
  unfold refAt. rewrite list_lookup_fmap.
  destruct (decide (i < m)%nat) as [Hi|Hi].
  - rewrite lookup_seq_lt by done. simpl.
    destruct (decide (j < n)%nat) as [Hj|Hj].
    + rewrite lookup_seq_lt by done. by rewrite decide_True.
    + rewrite lookup_seq_ge by lia. rewrite decide_False; [done|lia].
  - rewrite lookup_seq_ge by lia. simpl. rewrite decide_False; [done|lia].
Qed.

(** X13.  A created grid is well formed: its [rows] rows have [cols]
    entries each, every position holds a reference to an object of its
    own that did not exist before, and every reference is valid. *)
Theorem created_grid_has_own_cells (rows cols : Z) (mode : string) (pct : Q)
    (random : nat -> Q) (h : list Cell) :
  (0 <= rows < 2 ^ 32)%Z -> (0 <= cols < 2 ^ 32)%Z ->
  exists g h',
    initializeGrid (Some rows) (Some cols) mode pct random h = Ok (g, h')
    /\ length g = Z.to_nat rows
    /\ Forall (fun row => length row = Z.to_nat cols) g
    /\ valid h' g
    /\ distinctCells g
    /\ (forall i j l, refAt g i j = Some l -> (length h <= l)%nat)
    /\ (forall l, (l < length h)%nat -> h' !! l = h !! l).
Proof.
  intros Hr Hc.
  destruct (initializeGrid_full rows cols mode pct random h Hr Hc)
    as (h' & Hrun & Hlen & Hkeep & _).
  eexists _, h'. split; [exact Hrun|].
  split; [by rewrite length_map, length_seq|].
  split.
  { apply Forall_forall. intros row Hrow.
    apply list_elem_of_fmap in Hrow as (i & -> & _). apply length_seq. }
  split.
  { apply Forall_forall. intros row Hrow.
    apply list_elem_of_fmap in Hrow as (i & -> & Hi).
    apply elem_of_seq in Hi. apply Forall_forall. intros l Hl.
    apply elem_of_seq in Hl. rewrite Hlen. nia. }
  split.
  { intros i j i' j' l. rewrite !refAt_rows.
    destruct (decide _) as [[Hi Hj]|]; [|done].
    destruct (decide _) as [[Hi' Hj']|]; [|done].
    intros [= <-] [= Heq].
    assert (i = i') by nia. subst i'. split; [done|lia]. }
  split; [|done].
  intros i j l. rewrite refAt_rows.
  destruct (decide _); [|done]. intros [= <-]. lia.
Qed.

Lemma lookup_concat_rect (g : list (list nat)) n index :
  Forall (fun row => length row = n) g -> (0 < n)%nat ->
  concat g !! index = refAt g (index / n) (index mod n).
Proof.
  intros Hrect Hn. revert index.
  induction Hrect as [|row g Hrow Hrect IH]; intros index.
  - unfold refAt. done.
  - simpl. destruct (decide (index < n)%nat) as [Hlt|Hge].
    + rewrite lookup_app_l by lia.
      rewrite Nat.div_small, Nat.mod_small by done. done.
    + rewrite lookup_app_r by lia. rewrite Hrow, IH.
      assert (Hdiv : (index / n = S ((index - n) / n))%nat).
      { replace index with ((index - n) + 1 * n)%nat at 1 by lia.
        rewrite Nat.div_add by lia. lia. }
      assert (Hmod : (index mod n = (index - n) mod n)%nat).
      { replace index with ((index - n) + 1 * n)%nat at 1 by lia.
        by rewrite Nat.Div0.mod_add. }
      rewrite Hdiv, Hmod. done.
Qed.

(** X14.  In a grid whose rows all have the same positive length, the
    position that the click on the [index]-th rendered cell selects holds
    exactly that cell: the [index]-th element of [grid.flat()]. *)
Theorem click_selects_rendered_cell (g : list (list nat)) (n index : nat)
    (l : nat) :
  Forall (fun row => length row = n) g -> (0 < n)%nat ->
  flat g !! index = Some l ->
  exists row col,
    clickedPosition g index = Some (row, col)
    /\ refAt g row col = Some l.
Proof.
  intros Hrect Hn Hl. unfold flat in Hl.
  destruct g as [|row0 g']; [done|].
  assert (Hlen0 : length row0 = n) by by inversion Hrect.
  exists (index / n)%nat, (index mod n)%nat. split.
  - unfold clickedPosition. simpl. rewrite Hlen0.
    destruct (Nat.eqb_spec n 0); [lia|done].
  - by rewrite <- (lookup_concat_rect _ n index Hrect Hn).
Qed.

(** ** Reset and colours *)

Section Created.
Variables (rows cols : Z) (mode : string) (pct : Q) (random : nat -> Q).
Variables (st : Sim).
Hypothesis Hr : (0 <= rows < 2 ^ 32)%Z.
Hypothesis Hc : (0 <= cols < 2 ^ 32)%Z.

Let m := Z.to_nat rows.
Let n := Z.to_nat cols.
Let g := map (fun i => seq (length (heap st) + i * n) n) (seq 0 m).

(** The state in which a grid created from these parameters replaces the
    grid of [st]. *)
Lemma created_state :
  exists h',
    initializeGrid (Some rows) (Some cols) mode pct random (heap st) = Ok (g, h')
    /\ valid h' g /\ distinctCells g
    /\ forall st1, heap st1 = h' -> grid st1 = g ->
       forall r c,
         cellAt st1 r c
         = if decide (r < m /\ c < n)%nat
           then Some (newCell mode (pct / 100) random (r * n + c)%nat)
           else None.
Proof.
  destruct (initializeGrid_full rows cols mode pct random (heap st) Hr Hc)
    as (h' & Hrun & Hlen & Hkeep & Hcells).
  exists h'. split; [exact Hrun|]. split; [|split].
  - apply Forall_forall. intros row Hrow.
    apply list_elem_of_fmap in Hrow as (i & -> & Hi).
    apply elem_of_seq in Hi. apply Forall_forall. intros l Hl.
    apply elem_of_seq in Hl. rewrite Hlen. fold m n. nia.
  - intros i j i' j' l. unfold g. rewrite !refAt_rows.
    destruct (decide _) as [[Hi Hj]|]; [|done].
    destruct (decide _) as [[Hi' Hj']|]; [|done].
    intros [= <-] [= Heq].
    assert (i = i') by nia. subst i'. split; [done|lia].
  - intros st1 Hh Hg r c. rewrite cellAt_refAt, Hh, Hg. unfold g.
    rewrite refAt_rows. destruct (decide _) as [[Hi Hj]|]; [|done].
    by apply Hcells.
Qed.
End Created.

(** X15.  Reset stops the run, sets the tick counter to 0 and installs a
    new grid of fresh cells with every tap off and no override.  The
    selection is kept, so the history restarts with the selected cell's
    first sample at tick 0, or empty when no cell is selected. *)
Theorem reset_restarts (rows cols : Z) (mode : string) (pct : Q)
    (random : nat -> Q) (pg : Page) :
  (0 <= rows < 2 ^ 32)%Z -> (0 <= cols < 2 ^ 32)%Z ->
  match selectedCell (sim pg) with
  | Some (r, c) => (r < Z.to_nat rows)%nat /\ (c < Z.to_nat cols)%nat
  | None => True
  end ->
  exists pg',
    resetSimulation (mkSearchParams (Some rows) (Some cols) mode pct) random pg
    = Ok pg'
    /\ isRunning pg' = false
    /\ timeStep (sim pg') = 0%nat
    /\ selectedCell (sim pg') = selectedCell (sim pg)
    /\ params (sim pg') = params (sim pg)
    /\ wf (sim pg') /\ distinctCells (grid (sim pg'))
    /\ length (grid (sim pg')) = Z.to_nat rows
    /\ (forall r c cell, cellAt (sim pg') r c = Some cell ->
          tapStatus cell = false /\ overrideTap cell = false)
    /\ moistureHistory (sim pg')
       = match selectedCell (sim pg) with
         | Some (r, c) =>
             [mkSample 0 (moisture (newCell mode (pct / 100) random
                                            (r * Z.to_nat cols + c)%nat))]
         | None => []
         end.
Proof.
  intros Hr Hc Hsel.
  destruct (created_state rows cols mode pct random (sim pg) Hr Hc)
    as (h' & Hrun & Hv & Hd & Hcells).
  set (g := map (fun i => seq (length (heap (sim pg)) + i * Z.to_nat cols)
                             (Z.to_nat cols)) (seq 0 (Z.to_nat rows))) in *.
  set (st1 := with_grid h' g
                (with_moistureHistory [] (with_timeStep 0 (sim pg)))).
  specialize (Hcells st1 eq_refl eq_refl).
  assert (Hwf1 : wf st1).
  { split; [exact Hv|]. simpl.
    destruct (selectedCell (sim pg)) as [[r c]|]; [|done].
    rewrite Hcells. by rewrite decide_True. }
  unfold resetSimulation. simpl. rewrite Hrun. fold st1.
  rewrite (historyEffect_Ok st1 Hwf1). simpl.
  eexists. split; [reflexivity|]. simpl.
  split; [done|]. split; [done|]. split; [done|]. split; [done|].
  split.
  { destruct Hwf1 as [Hv1 Hs1]. split; [exact Hv1|]. simpl. simpl in Hs1.
    destruct (selectedCell (sim pg)) as [[r c]|]; [|done].
    by rewrite (cellAt_ext _ st1). }
  split; [exact Hd|].
  split; [unfold g; by rewrite length_map, length_seq|].
  split.
  { intros r c cell. rewrite (cellAt_ext _ st1) by done. rewrite Hcells.
    destruct (decide _); [|done]. by intros [= <-]. }
  unfold sampledFrom. simpl.
  destruct (selectedCell (sim pg)) as [[r c]|]; [|done].
  rewrite Hcells. by rewrite decide_True.
Qed.

(** X16.  A selection that the new grid does not contain makes the
    history effect throw: installing or resetting to a grid with at least
    one row, while the selected position lies outside its rows or
    columns, ends in a [TypeError]. *)
Theorem stale_selection_throws (rows cols : Z) (mode : string) (pct : Q)
    (random : nat -> Q) (pg : Page) (r c : nat) :
  (0 < rows < 2 ^ 32)%Z -> (0 <= cols < 2 ^ 32)%Z ->
  selectedCell (sim pg) = Some (r, c) ->
  (Z.to_nat rows <= r)%nat \/ (Z.to_nat cols <= c)%nat ->
  installGrid (mkSearchParams (Some rows) (Some cols) mode pct) random (sim pg)
  = Throw TypeError
  /\ resetSimulation (mkSearchParams (Some rows) (Some cols) mode pct) random pg
     = Throw TypeError.
Proof.
  intros Hr Hc Hs Hout.
  destruct (created_state rows cols mode pct random (sim pg)) as (h' & Hrun & _ & _ & Hcells);
    [lia|done|].
  set (g := map (fun i => seq (length (heap (sim pg)) + i * Z.to_nat cols)
                             (Z.to_nat cols)) (seq 0 (Z.to_nat rows))) in *.
  assert (Hthrow : forall st1, heap st1 = h' -> grid st1 = g ->
            selectedCell st1 = Some (r, c) -> historyEffect st1 = Throw TypeError).
  { intros st1 Hh Hg Hs1. unfold historyEffect. rewrite Hs1, Hg.
    assert (Hlen : (0 <? length g)%nat = true).
    { apply Nat.ltb_lt. unfold g. rewrite length_map, length_seq. lia. }
    rewrite Hlen.
    assert (Hnone : refAt g r c = None).
    { unfold g. rewrite refAt_rows. rewrite decide_False; [done|lia]. }
    unfold cellRef, rowOf, bind, refAt in *.
    destruct (g !! r) as [row|]; [|done]. unfold ret. by rewrite Hnone. }
  split.
  - unfold installGrid. simpl. rewrite Hrun. by apply Hthrow.
  - unfold resetSimulation. simpl. rewrite Hrun. by rewrite Hthrow.
Qed.

(** X17.  For a moisture in [0,1] every colour scheme yields a colour
    within the ranges of [hsl()]: hue in [0,240], saturation and
    lightness in [0,100]. *)
Theorem color_components_in_range (m : Q) (scheme : string) :
  0 <= m <= 1 ->
  0 <= hue (getColorForMoisture m scheme) <= 240
  /\ 0 <= saturation (getColorForMoisture m scheme) <= 100
  /\ 0 <= lightness (getColorForMoisture m scheme) <= 100.
Proof.
  intros [H0 H1]. unfold getColorForMoisture.
  destruct (String.eqb scheme "blue"); [|destruct (String.eqb scheme "grayscale")];
    simpl; repeat split; lra.
Qed.

(** X18.  The colours follow the moisture in every scheme: of two
    moistures the wetter one never has the smaller hue nor the lighter
    colour, and the saturation does not depend on the moisture. *)
Theorem color_follows_moisture (m1 m2 : Q) (scheme : string) :
  m1 <= m2 ->
  hue (getColorForMoisture m1 scheme) <= hue (getColorForMoisture m2 scheme)
  /\ lightness (getColorForMoisture m2 scheme)
     <= lightness (getColorForMoisture m1 scheme)
  /\ saturation (getColorForMoisture m1 scheme)
     == saturation (getColorForMoisture m2 scheme).
Proof.
  intros Hm. unfold getColorForMoisture.
  destruct (String.eqb scheme "blue"); [|destruct (String.eqb scheme "grayscale")];
    simpl; repeat split; lra.
Qed.

(** X19.  In the grayscale scheme the cell text is white exactly on the
    backgrounds darker than 50% lightness. *)
Theorem grayscale_text_contrast (m : Q) :
  getTextColorForMoisture m = "white"%string
  <-> lightness (getColorForMoisture m "grayscale") < 50.
Proof.
  unfold getTextColorForMoisture, getColorForMoisture, Qltb. simpl.
  destruct (Qle_bool m (1 # 2)) eqn:Hle; simpl.
  - apply Qle_bool_iff in Hle. split; [done|]. intros Hlt. lra.
  - split; [|done]. intros _.
    destruct (Qlt_le_dec (1 # 2) m) as [Hlt|Hge]; [lra|].
    apply Qle_bool_iff in Hge. congruence.
Qed.

(** ** Instances on concrete grids *)

Lemma row2_distinct : distinctCells [[0%nat; 1%nat]].
Proof.
  intros i j i' j' l. unfold refAt.
  destruct i as [|i]; [|by destruct i].
  destruct i' as [|i']; [|by destruct i'].
  destruct j as [|[|j]]; destruct j' as [|[|j']]; simpl;
    intros H1 H2; try done; congruence.
Qed.

Lemma row2_valid (c1 c2 : Cell) : valid [c1; c2] [[0%nat; 1%nat]].
Proof. unfold valid. simpl. repeat constructor. Qed.

Lemma demoSelected_wf : wf demoSelected.
Proof. split; [apply row2_valid|]. simpl. by eexists. Qed.

Lemma step_decides_taps_witness :
  valid (heap demo2) (grid demo2) /\ distinctCells (grid demo2)
  /\ exists st', updateGrid demo2 = Ok st'.
Proof.
  split; [apply row2_valid|]. split; [exact row2_distinct|].
  destruct (step_decides_taps demo2 (row2_valid _ _) row2_distinct)
    as (st' & Hup & _).
  by exists st'.
Defined.

Lemma demoNoDiffusion_inRange : gridInRange demoNoDiffusion.
Proof.
  intros [|row] col cell; [|by destruct row].
  destruct col as [|[|col]]; unfold cellAt; simpl; intros [= <-];
    split; discriminate.
Qed.

Lemma step_without_diffusion_witness :
  valid (heap demoNoDiffusion) (grid demoNoDiffusion)
  /\ distinctCells (grid demoNoDiffusion)
  /\ gridInRange demoNoDiffusion
  /\ diffusionCoefficient (params demoNoDiffusion) == 0
  /\ exists st',
       updateGrid demoNoDiffusion = Ok st'
       /\ forall row col cell, cellAt demoNoDiffusion row col = Some cell ->
            exists cell',
              cellAt st' row col = Some cell'
              /\ moisture cell'
                 == clamp (if tapStatus cell'
                           then moisture cell + (5 # 100) * 1
                           else moisture cell - (2 # 100) * 1).
Proof.
  split; [apply row2_valid|]. split; [exact row2_distinct|].
  split; [exact demoNoDiffusion_inRange|]. split; [reflexivity|].
  exact (step_without_diffusion demoNoDiffusion (row2_valid _ _) row2_distinct
           demoNoDiffusion_inRange (Qeq_refl 0)).
Defined.

Lemma half_uniform :
  forall row col cell,
    cellAt (twoCells (1 # 2) (1 # 2) (1 # 10)) row col = Some cell ->
    moisture cell == 1 # 2.
Proof.
  intros [|row] col cell; [|by destruct row].
  destruct col as [|[|col]]; unfold cellAt; simpl; intros [= <-]; reflexivity.
Qed.

Lemma step_keeps_uniform_grid_witness :
  valid (heap (twoCells (1 # 2) (1 # 2) (1 # 10)))
        (grid (twoCells (1 # 2) (1 # 2) (1 # 10)))
  /\ 0 <= 1 # 2 <= 1
  /\ exists st',
       updateGrid (twoCells (1 # 2) (1 # 2) (1 # 10)) = Ok st'
       /\ forall row col cell', cellAt st' row col = Some cell' ->
            moisture cell' == 1 # 2.
Proof.
  assert (Hm : 0 <= 1 # 2 <= 1) by (split; discriminate).
  split; [apply row2_valid|]. split; [exact Hm|].
  exact (step_keeps_uniform_grid (twoCells (1 # 2) (1 # 2) (1 # 10)) (1 # 2)
           (row2_valid _ _) Hm (Qeq_refl 0) (Qeq_refl 0) half_uniform).
Defined.

Lemma manual_moisture_sets_cell_witness :
  wf demoSelected /\ selectedCell demoSelected = Some (0, 1)%nat
  /\ cellAt demoSelected 0 1 = Some (mkCell (9 # 10) true true)
  /\ exists st' cell',
       dispatch (ManualMoisture (Some 250)) demoSelected = Ok st'
       /\ cellAt st' 0 1 = Some cell'
       /\ overrideTap cell' = true /\ tapStatus cell' = true.
Proof.
  split; [exact demoSelected_wf|]. split; [reflexivity|]. split; [reflexivity|].
  destruct (manual_moisture_sets_cell demoSelected 250 0 1 _ demoSelected_wf
              eq_refl eq_refl) as (st' & cell' & Hd & Hc & Ho & Ht & _).
  exists st', cell'. split; [exact Hd|]. split; [exact Hc|].
  split; [exact Ho|exact Ht].
Defined.

Lemma toggle_tap_twice_witness :
  wf demoSelected /\ selectedCell demoSelected = Some (0, 1)%nat
  /\ cellAt demoSelected 0 1 = Some (mkCell (9 # 10) true true)
  /\ exists st1 st2,
       dispatch ToggleTap demoSelected = Ok st1
       /\ dispatch ToggleTap st1 = Ok st2
       /\ cellAt st2 0 1 = Some (mkCell (9 # 10) true true).
Proof.
  split; [exact demoSelected_wf|]. split; [reflexivity|]. split; [reflexivity|].
  destruct (toggle_tap_twice demoSelected 0 1 _ demoSelected_wf eq_refl eq_refl)
    as (st1 & st2 & Hd1 & _ & Hd2 & Hc2 & _).
  exists st1, st2. split; [exact Hd1|]. split; [exact Hd2|exact Hc2].
Defined.

Lemma reset_then_step_recomputes_tap_witness :
  wf demoSelected /\ distinctCells (grid demoSelected)
  /\ selectedCell demoSelected = Some (0, 1)%nat
  /\ cellAt demoSelected 0 1 = Some (mkCell (9 # 10) true true)
  /\ exists st1 st2 cell2,
       dispatch ResetTapControl demoSelected = Ok st1
       /\ updateGrid st1 = Ok st2
       /\ cellAt st2 0 1 = Some cell2
       /\ tapStatus cell2 = false.
Proof.
  split; [exact demoSelected_wf|]. split; [exact row2_distinct|].
  split; [reflexivity|]. split; [reflexivity|].
  destruct (reset_then_step_recomputes_tap demoSelected 0 1 _ demoSelected_wf
              row2_distinct eq_refl eq_refl)
    as (st1 & st2 & cell2 & Hd & _ & Hup & Hc & _ & Ht).
  exists st1, st2, cell2. split; [exact Hd|]. split; [exact Hup|].
  split; [exact Hc|]. rewrite Ht. reflexivity.
Defined.

Lemma cells_stay_distinct_witness :
  wf demoSelected /\ distinctCells (grid demoSelected)
  /\ exists st',
       run [ToggleTap; StepForward; Click 0 0; ManualMoisture (Some 30);
            StepForward] demoSelected = Ok st'
       /\ distinctCells (grid st').
Proof.
  split; [exact demoSelected_wf|]. split; [exact row2_distinct|].
  exact (cells_stay_distinct demoSelected _ demoSelected_wf row2_distinct).
Defined.

Lemma demoSelected_paramsInRange : paramsInRange demoSelected.
Proof. unfold paramsInRange. simpl. repeat split; discriminate. Qed.

Lemma params_stay_in_range_witness :
  wf demoSelected /\ paramsInRange demoSelected
  /\ exists st',
       run [ParamInput KDiffusionCoefficient 5; ParamInput KIrrigationRate (3 # 10);
            TimeStepSizeInput 0; StepForward] demoSelected = Ok st'
       /\ paramsInRange st'.
Proof.
  split; [exact demoSelected_wf|]. split; [exact demoSelected_paramsInRange|].
  exact (params_stay_in_range demoSelected _ demoSelected_wf
           demoSelected_paramsInRange).
Defined.

Lemma demoSelected_historyOrdered : historyOrdered demoSelected.
Proof.
  split.
  - intros [|i] [|j] s1 s2 Hij; simpl; try done; intros [= <-] [= <-]; lia.
  - intros s Hs. apply list_elem_of_singleton in Hs as ->. simpl. lia.
Qed.

Lemma history_stays_ordered_witness :
  wf demoSelected /\ historyOrdered demoSelected
  /\ exists st',
       run [StepForward; ToggleTap; Click 0 0; StepForward] demoSelected = Ok st'
       /\ historyOrdered st'.
Proof.
  split; [exact demoSelected_wf|]. split; [exact demoSelected_historyOrdered|].
  exact (history_stays_ordered demoSelected _ demoSelected_wf
           demoSelected_historyOrdered).
Defined.

Lemma tick_counts_steps_witness :
  exists pg',
    runPage (mkSearchParams (Some 1%Z) (Some 2%Z) "uniform" 50)
            [Engine StepForward; Reset (fun _ => 0); Engine StepForward;
             StartPause; Engine ToggleTap; Engine StepForward] demoPage
    = Ok pg'
    /\ timeStep (sim pg') = 2%nat.
Proof.
  destruct (runPage (mkSearchParams (Some 1%Z) (Some 2%Z) "uniform" 50)
              [Engine StepForward; Reset (fun _ => 0); Engine StepForward;
               StartPause; Engine ToggleTap; Engine StepForward] demoPage)
    as [pg'|e] eqn:Hrun; [|vm_compute in Hrun; discriminate].
  exists pg'. split; [reflexivity|].
  exact (proj2 (tick_counts_steps _ _ _ _ Hrun)
           [Engine StepForward] (fun _ => 0)
           [Engine StepForward; StartPause; Engine ToggleTap; Engine StepForward]
           eq_refl eq_refl).
Defined.

Lemma no_selection_no_samples_witness :
  wf demo2 /\ selectedCell demo2 = None
  /\ exists st',
       run [StepForward; ToggleTap; ManualMoisture (Some 10); StepForward] demo2
       = Ok st'
       /\ selectedCell st' = None
       /\ moistureHistory st' = [].
Proof.
  split; [exact demo2_wf|]. split; [reflexivity|].
  exact (no_selection_no_samples
           [StepForward; ToggleTap; ManualMoisture (Some 10); StepForward]
           demo2 demo2_wf eq_refl eq_refl).
Defined.

Lemma created_grid_has_own_cells_witness :
  (0 <= 2 < 2 ^ 32)%Z /\ (0 <= 3 < 2 ^ 32)%Z
  /\ exists g h',
       initializeGrid (Some 2%Z) (Some 3%Z) "random" 50 (fun k => 1 # 2)
                      [mkCell 0 false false] = Ok (g, h')
       /\ length g = 2%nat /\ valid h' g /\ distinctCells g.
Proof.
  assert (H2 : (0 <= 2 < 2 ^ 32)%Z) by lia.
  assert (H3 : (0 <= 3 < 2 ^ 32)%Z) by lia.
  split; [exact H2|]. split; [exact H3|].
  destruct (created_grid_has_own_cells 2 3 "random" 50 (fun k => 1 # 2)
              [mkCell 0 false false] H2 H3)
    as (g & h' & Hrun & Hlen & _ & Hv & Hd & _).
  exists g, h'. split; [exact Hrun|]. split; [exact Hlen|].
  split; [exact Hv|exact Hd].
Defined.

Lemma click_selects_rendered_cell_witness :
  Forall (fun row => length row = 3%nat) [[0; 1; 2]; [3; 4; 5]]%nat
  /\ (0 < 3)%nat
  /\ flat [[0; 1; 2]; [3; 4; 5]]%nat !! 4%nat = Some 4%nat
  /\ exists row col,
       clickedPosition [[0; 1; 2]; [3; 4; 5]]%nat 4 = Some (row, col)
       /\ refAt [[0; 1; 2]; [3; 4; 5]]%nat row col = Some 4%nat.
Proof.
  assert (Hr : Forall (fun row => length row = 3%nat) [[0; 1; 2]; [3; 4; 5]]%nat)
    by (repeat constructor).
  assert (H3 : (0 < 3)%nat) by lia.
  split; [exact Hr|]. split; [exact H3|]. split; [reflexivity|].
  exact (click_selects_rendered_cell [[0; 1; 2]; [3; 4; 5]]%nat 3 4 4 Hr H3 eq_refl).
Defined.

Lemma reset_restarts_witness :
  (0 <= 1 < 2 ^ 32)%Z /\ (0 <= 2 < 2 ^ 32)%Z
  /\ exists pg',
       resetSimulation (mkSearchParams (Some 1%Z) (Some 2%Z) "uniform" 50)
                       (fun _ => 0) demoPage = Ok pg'
       /\ isRunning pg' = false /\ timeStep (sim pg') = 0%nat
       /\ moistureHistory (sim pg') = [mkSample 0 (50 / 100)].
Proof.
  assert (H1 : (0 <= 1 < 2 ^ 32)%Z) by lia.
  assert (H2 : (0 <= 2 < 2 ^ 32)%Z) by lia.
  split; [exact H1|]. split; [exact H2|].
  destruct (reset_restarts 1 2 "uniform" 50 (fun _ => 0) demoPage H1 H2)
    as (pg' & Hrun & Hrunning & Ht & _ & _ & _ & _ & _ & _ & Hh).
  { simpl. lia. }
  exists pg'. split; [exact Hrun|]. split; [exact Hrunning|].
  split; [exact Ht|exact Hh].
Defined.

Lemma stale_selection_throws_witness :
  (0 < 1 < 2 ^ 32)%Z /\ (0 <= 1 < 2 ^ 32)%Z
  /\ selectedCell (sim demoPage) = Some (0, 1)%nat
  /\ installGrid (mkSearchParams (Some 1%Z) (Some 1%Z) "uniform" 50)
                 (fun _ => 0) (sim demoPage) = Throw TypeError
  /\ resetSimulation (mkSearchParams (Some 1%Z) (Some 1%Z) "uniform" 50)
                     (fun _ => 0) demoPage = Throw TypeError.
Proof.
  assert (H1 : (0 < 1 < 2 ^ 32)%Z) by lia.
  assert (H2 : (0 <= 1 < 2 ^ 32)%Z) by lia.
  split; [exact H1|]. split; [exact H2|]. split; [reflexivity|].
  apply (stale_selection_throws 1 1 "uniform" 50 (fun _ => 0) demoPage 0 1 H1 H2
           eq_refl).
  right. simpl. lia.
Defined.

Lemma color_components_in_range_witness :
  0 <= 1 # 2 <= 1
  /\ 0 <= hue (getColorForMoisture (1 # 2) "blue") <= 240
  /\ 0 <= saturation (getColorForMoisture (1 # 2) "blue") <= 100
  /\ 0 <= lightness (getColorForMoisture (1 # 2) "blue") <= 100.
Proof.
  assert (Hm : 0 <= 1 # 2 <= 1) by (split; discriminate).
  split; [exact Hm|]. exact (color_components_in_range (1 # 2) "blue" Hm).
Defined.

Lemma color_follows_moisture_witness :
  1 # 4 <= 3 # 4
  /\ hue (getColorForMoisture (1 # 4) "default")
     <= hue (getColorForMoisture (3 # 4) "default")
  /\ lightness (getColorForMoisture (3 # 4) "default")
     <= lightness (getColorForMoisture (1 # 4) "default")
  /\ saturation (getColorForMoisture (1 # 4) "default")
     == saturation (getColorForMoisture (3 # 4) "default").
Proof.
  assert (Hm : 1 # 4 <= 3 # 4) by discriminate.
  split; [exact Hm|]. exact (color_follows_moisture (1 # 4) (3 # 4) "default" Hm).
Defined.

Lemma second_cell_reads_first_witness :
  0 <= 0 <= 1 /\ 0 <= 1 <= 1 /\ 0 <= 1 # 10 <= 1
  /\ exists st' a b,
       updateGrid (twoCells 0 1 (1 # 10)) = Ok st'
       /\ cellAt st' 0 0 = Some a /\ cellAt st' 0 1 = Some b
       /\ moisture a == clamp (0 + (1 # 10) * (1 - 0))
       /\ moisture b == clamp (1 + (1 # 10) * (moisture a - 1)).
Proof.
  assert (H0 : 0 <= 0 <= 1) by (split; discriminate).
  assert (H1 : 0 <= 1 <= 1) by (split; discriminate).
  assert (HD : 0 <= 1 # 10 <= 1) by (split; discriminate).
  split; [exact H0|]. split; [exact H1|]. split; [exact HD|].
  exact (second_cell_reads_first 0 1 (1 # 10) H0 H1 HD).
Defined.
